(** * A shallow embedding of the router dispatch engine (index.js)

    The development follows the source file top-down: JavaScript values and
    strings, the parameter objects and [mergeParams], the parameter pipeline
    [process_params], the continuation [next] of [handle] with its scan loop
    and [trim_prefix], and the registration function [use]. *)

From Stdlib Require Import Ascii.
From stdpp Require Import gmap strings list fin_maps pretty.

Local Open Scope string_scope.
Local Open Scope list_scope.
Local Open Scope nat_scope.

(** ** JavaScript values

    Errors, match results and parameter values are dynamically typed in the
    source.  Only the distinctions the router itself makes are kept:
    truthiness, [typeof v === 'boolean'], and strict equality [===]. *)

Inductive value : Type :=
| VUndef
| VNull
| VBool (b : bool)
| VNum (n : Z)
| VStr (s : string)
| VErr (msg : string).

Global Instance value_eq_dec : EqDecision value.
Proof. solve_decision. Defined.

Global Instance value_inhabited : Inhabited value := populate VUndef.

(** [if (v)] *)
Definition truthy (v : value) : bool :=
  match v with
  | VUndef | VNull => false
  | VBool b => b
  | VNum n => negb (Z.eqb n 0)
  | VStr s => negb (bool_decide (s = ""))
  | VErr _ => true
  end.

(** [a === b] *)
Definition strict_eq (a b : value) : bool := bool_decide (a = b).

(** [a || b] *)
Definition js_or (a b : value) : value := if truthy a then a else b.

(** [typeof v === 'boolean'] *)
Definition is_boolean (v : value) : bool :=
  match v with VBool _ => true | _ => false end.

(** ** JavaScript string primitives used by the router *)

(** [s.substr(n)] *)
Fixpoint substr (n : nat) (s : string) : string :=
  match n, s with
  | 0, _ => s
  | S n', String _ s' => substr n' s'
  | S _, EmptyString => EmptyString
  end.

(** [s[i]], [None] standing for [undefined] *)
Definition char_at (s : string) (i : nat) : option ascii := String.get i s.

(** [s.substring(0, n)] *)
Definition substring0 (n : nat) (s : string) : string := String.substring 0 n s.

Definition slash : ascii := "/"%char.

(** ** Parameter objects

    A params object maps property names to values.  A numeric index [i] used
    as a property name is the decimal string [pretty i]. *)

Abbreviation Params := (gmap string value).

(** [k in m] *)
Definition has (k : string) (m : Params) : bool := bool_decide (is_Some (m !! k)).

(** [m[k]] *)
Definition get (m : Params) (k : string) : value := default VUndef (m !! k).

(** [mixin(a, b)] of utils-merge: every property of [b] is copied onto [a]. *)
Definition mixin (a b : Params) : Params := b ∪ a.

(** [var i = 0; while (i in m) { i++ }].  A map of size [n] cannot hold more
    than [n] consecutive indices, so [size m] iterations are enough; see
    [numeric_gap_spec]. *)
Fixpoint numeric_gap_from (fuel : nat) (m : Params) (i : nat) : nat :=
  match fuel with
  | 0 => i
  | S fuel' => if has (pretty i) m then numeric_gap_from fuel' m (S i) else i
  end.

Definition numeric_gap (m : Params) : nat := numeric_gap_from (size m) m 0.

(** [for (i--; i >= 0; i--) { params[i + o] = params[i];
                              if (i < o) { delete params[i] } }]
    The first argument is the value of [i] before the initial [i--]. *)
Fixpoint offset_numeric (i o : nat) (params : Params) : Params :=
  match i with
  | 0 => params
  | S i' =>
      let params := <[pretty (i' + o) := get params (pretty i')]> params in
      let params := if i' <? o then delete (pretty i') params else params in
      offset_numeric i' o params
  end.

(** [mergeParams(params, parent)].  [parent] is [None] when it is not an
    object ([session.params] was never set). *)
Definition mergeParams (params : Params) (parent : option Params) : Params :=
  match parent with
  | None => params
  | Some parent =>
      let obj := mixin ∅ parent in
      if negb (has (pretty 0) params) || negb (has (pretty 0) parent)
      then mixin obj params
      else
        let i := numeric_gap params in
        let o := numeric_gap parent in
        mixin obj (offset_numeric i o params)
  end.

(** ** The request context

    The fields the router reads or writes.  [None] stands for a property that
    is [undefined].  [query] and [next] are written by [handle] but never read
    back by the router and are left out; [sroute] keeps the path of the Route
    stored in [session.route]. *)

Record Session : Type := mkSession {
  url : string;
  originalUrl : option string;
  baseUrl : option string;
  params : option Params;
  step : option nat;
  sroute : option string
}.

Definition set_url (u : string) (s : Session) : Session :=
  mkSession u (originalUrl s) (baseUrl s) (params s) (step s) (sroute s).
Definition set_originalUrl (u : option string) (s : Session) : Session :=
  mkSession (url s) u (baseUrl s) (params s) (step s) (sroute s).
Definition set_baseUrl (b : option string) (s : Session) : Session :=
  mkSession (url s) (originalUrl s) b (params s) (step s) (sroute s).
Definition set_params (p : option Params) (s : Session) : Session :=
  mkSession (url s) (originalUrl s) (baseUrl s) p (step s) (sroute s).
Definition set_step (n : option nat) (s : Session) : Session :=
  mkSession (url s) (originalUrl s) (baseUrl s) (params s) n (sroute s).
Definition set_sroute (r : option string) (s : Session) : Session :=
  mkSession (url s) (originalUrl s) (baseUrl s) (params s) (step s) r.

(** [u || v] on optional strings: the empty string is falsy. *)
Definition str_or (u : option string) (v : string) : string :=
  match u with
  | Some w => if bool_decide (w = "") then v else w
  | None => v
  end.

(** ** Layers, handlers and parameter callbacks

    [./lib/layer] and [./lib/route] are collaborators of the router; a layer
    is taken by what the router asks of it. *)

(** What a handler does with the continuation it is given: it calls
    [next(err)], having left the shared context in state [s], or it ends the
    exchange and never calls it. *)
Inductive HandlerResult : Type :=
| HNext (s : Session) (err : value)
| HStop (s : Session).

(** The outcome of [layer.match(path)]: the value returned (or the error
    thrown, which [matchLayer] returns in its place) and the scratch
    properties [layer.path] and [layer.params] the call leaves behind. *)
Record MatchResult : Type := mkMatch {
  m_value : value;
  m_path : string;
  m_params : Params
}.

Record Layer : Type := mkLayer {
  l_match : string -> MatchResult;
  l_keys : list string;             (* the names of [layer.keys] *)
  l_route : option string;          (* [layer.route], by the route's path *)
  handle_request : Session -> HandlerResult;
  handle_error : value -> Session -> HandlerResult
}.

(** [matchLayer(layer, path)] *)
Definition matchLayer (layer : Layer) (path : string) : value :=
  m_value (l_match layer path).

(** A parameter callback [fn(session, res, paramCallback, paramVal, name)]:
    it may assign [session.params[name]] and then calls the continuation,
    throws, or never continues. *)
Inductive ParamFnResult : Type :=
| PNext (upd : option value) (err : value)
| PThrow (upd : option value) (e : value)
| PStall.

Definition ParamFn : Type := Session -> value -> string -> ParamFnResult.

(** The record [{error, match, value}] kept per name in [paramcalled]. *)
Record ParamCalled : Type := mkCalled {
  pc_error : value;
  pc_match : value;
  pc_value : value
}.

Record Router : Type := mkRouter {
  r_caseSensitive : bool;
  r_mergeParams : bool;
  r_params : gmap string (list ParamFn);
  r_strict : bool;
  r_stack : list Layer
}.

(** ** Observable events *)

Inductive Event : Type :=
| EParamFn (name : string) (val : value)        (* a parameter callback runs *)
| ERequest (i : nat) (s : Session)              (* [stack[i].handle_request] *)
| EError (i : nat) (err : value) (s : Session)  (* [stack[i].handle_error] *)
| ECallback (err : value) (s : Session).        (* the terminal callback *)

Definition is_callback (e : Event) : bool :=
  match e with ECallback _ _ => true | _ => false end.

Definition is_paramfn (e : Event) : bool :=
  match e with EParamFn _ _ => true | _ => false end.

(** ** process_params *)

Inductive ParamsResult : Type :=
| PDone (called : gmap string ParamCalled) (p : Params) (tr : list Event) (err : value)
| PStalled (called : gmap string ParamCalled) (p : Params) (tr : list Event).

Definition apply_upd (name : string) (upd : option value) (p : Params) : Params :=
  match upd with
  | Some v => <[name := v]> p
  | None => p
  end.

(** [paramCallback(err)], over the callbacks from [paramIndex] on.  [pc] is
    the record [paramCalled] (the object stored in [called[name]]), [p] the
    object [session.params].  The last component is the argument with which
    [param] is called next, or [None] if a callback never continues. *)
Fixpoint paramCallback (fns : list ParamFn) (name : string) (paramVal : value)
    (pc : ParamCalled) (p : Params) (s : Session) (tr : list Event) (err : value)
    : ParamCalled * Params * list Event * option value :=
  (* store updated value *)
  let pc := mkCalled (pc_error pc) (pc_match pc) (get p name) in
  if truthy err then
    (* store error *)
    (mkCalled err (pc_match pc) (pc_value pc), p, tr, Some err)
  else
    match fns with
    | [] => (pc, p, tr, Some VUndef)
    | fn :: fns' =>
        let tr := tr ++ [EParamFn name paramVal] in
        match fn (set_params (Some p) s) paramVal name with
        | PNext upd e => paramCallback fns' name paramVal pc (apply_upd name upd p) s tr e
        | PThrow upd e => paramCallback fns' name paramVal pc (apply_upd name upd p) s tr e
        | PStall => (pc, p, tr, None)
        end
    end.

(** Does the cached record answer for [paramVal]?
    [paramCalled.match === paramVal ||
     (paramCalled.error && paramCalled.error !== 'route')] *)
Definition cache_hit (pc : ParamCalled) (paramVal : value) : bool :=
  strict_eq (pc_match pc) paramVal
  || (truthy (pc_error pc) && negb (strict_eq (pc_error pc) (VStr "route"))).

(** [param(err)], over the keys from index [i] on. *)
Fixpoint param (registry : gmap string (list ParamFn)) (keys : list string)
    (called : gmap string ParamCalled) (p : Params) (s : Session)
    (tr : list Event) (err : value) : ParamsResult :=
  if truthy err then PDone called p tr err
  else
    match keys with
    | [] => PDone called p tr VUndef
    | name :: keys' =>
        let paramVal := get p name in
        let run (fns : list ParamFn) :=
          let '(pc, p', tr', k) :=
            paramCallback fns name paramVal (mkCalled VNull paramVal paramVal) p s tr VUndef in
          let called' := <[name := pc]> called in
          match k with
          | Some e => param registry keys' called' p' s tr' e
          | None => PStalled called' p' tr'
          end in
        match registry !! name with
        | None => param registry keys' called p s tr VUndef
        | Some fns =>
            if strict_eq paramVal VUndef then param registry keys' called p s tr VUndef
            else
              match called !! name with
              | Some pc =>
                  if cache_hit pc paramVal then
                    (* restore value, next param *)
                    param registry keys' called (<[name := pc_value pc]> p) s tr (pc_error pc)
                  else run fns
              | None => run fns
              end
        end
    end.

(** [process_params(layer, called, session, res, done)] *)
Definition process_params (r : Router) (layer : Layer)
    (called : gmap string ParamCalled) (p : Params) (s : Session)
    (tr : list Event) : ParamsResult :=
  match l_keys layer with
  | [] => PDone called p tr VUndef      (* fast track *)
  | keys => param (r_params r) keys called p s tr VUndef
  end.

(** ** The state of one [handle] call

    The closure variables of [handle] that [next] and [trim_prefix] update,
    the shared context, the events observed so far, and the calls of [done]
    handed to [defer] and not yet run. *)

Record Machine : Type := mkMachine {
  idx : nat;
  removed : string;
  slashAdded : bool;
  paramcalled : gmap string ParamCalled;
  session : Session;
  trace : list Event;
  deferred : list value
}.

Definition set_idx (i : nat) (m : Machine) : Machine :=
  mkMachine i (removed m) (slashAdded m) (paramcalled m) (session m) (trace m) (deferred m).
Definition set_removed (x : string) (m : Machine) : Machine :=
  mkMachine (idx m) x (slashAdded m) (paramcalled m) (session m) (trace m) (deferred m).
Definition set_slashAdded (b : bool) (m : Machine) : Machine :=
  mkMachine (idx m) (removed m) b (paramcalled m) (session m) (trace m) (deferred m).
Definition set_paramcalled (c : gmap string ParamCalled) (m : Machine) : Machine :=
  mkMachine (idx m) (removed m) (slashAdded m) c (session m) (trace m) (deferred m).
Definition set_session (s : Session) (m : Machine) : Machine :=
  mkMachine (idx m) (removed m) (slashAdded m) (paramcalled m) s (trace m) (deferred m).
Definition set_trace (t : list Event) (m : Machine) : Machine :=
  mkMachine (idx m) (removed m) (slashAdded m) (paramcalled m) (session m) t (deferred m).
Definition set_deferred (d : list value) (m : Machine) : Machine :=
  mkMachine (idx m) (removed m) (slashAdded m) (paramcalled m) (session m) (trace m) d.

Definition log (e : Event) (m : Machine) : Machine := set_trace (trace m ++ [e]) m.

(** [parentParams] and [parentUrl], read off the context as it entered. *)
Definition parentParams (entry : Session) : option Params := params entry.
Definition parentUrl (entry : Session) : string := str_or (baseUrl entry) "".

(** [done = restore(callback, session, 'baseUrl', 'next', 'params')]: put
    back the properties saved on entry, then call the terminal callback. *)
Definition restore (entry s : Session) : Session :=
  set_params (params entry) (set_baseUrl (baseUrl entry) s).

Definition done (entry : Session) (m : Machine) (err : value) : Machine :=
  let s := restore entry (session m) in
  log (ECallback err s) (set_session s m).

(** [defer(done, err)] *)
Definition defer (m : Machine) (err : value) : Machine :=
  set_deferred (deferred m ++ [err]) m.

(** The scheduler later runs the deferred calls in order. *)
Definition run_deferred (entry : Session) (m : Machine) : Machine :=
  fold_left (done entry) (deferred m) (set_deferred [] m).

(** The first lines of [next]: remove the added slash, restore the altered
    [session.url]. *)
Definition untrim (entry : Session) (m : Machine) : Machine :=
  let m :=
    if slashAdded m
    then set_slashAdded false (set_session (set_url (substr 1 (url (session m))) (session m)) m)
    else m in
  if negb (String.length (removed m) =? 0)
  then
    let s := set_baseUrl (Some (parentUrl entry)) (session m) in
    let s := set_url (removed m +:+ substr 0 (url s)) s in
    set_removed "" (set_session s m)
  else m.

(** *** The scan loop of [next] *)

Record Scan : Type := mkScan {
  sc_idx : nat;
  sc_layer : option (Layer * MatchResult);   (* [layer], with its scratch state *)
  sc_match : value;                          (* [match] *)
  sc_error : value                           (* [layerError] *)
}.

(** [idx < session.step]; a comparison with [undefined] is false. *)
Definition lt_step (i : nat) (st : option nat) : bool :=
  match st with
  | Some k => i <? k
  | None => false
  end.

(** [while (match !== true && idx < stack.length) { ... }], over the layers
    [stack[idx], stack[idx+1], ...].  Every [continue] is a recursive call. *)
Fixpoint scan (rest : list Layer) (path : string) (stp : option nat) (st : Scan) : Scan :=
  if strict_eq (sc_match st) (VBool true) then st
  else
    match rest with
    | [] => st
    | layer :: rest' =>
        let i := S (sc_idx st) in
        let mr := l_match layer path in
        let mtch := matchLayer layer path in
        let route := l_route layer in
        if lt_step i stp then
          scan rest' path stp (mkScan i (Some (layer, mr)) mtch (sc_error st))
        else
          let layerError :=
            if negb (is_boolean mtch)
            then js_or (sc_error st) mtch      (* hold on to layerError *)
            else sc_error st in
          if negb (strict_eq mtch (VBool true)) then
            scan rest' path stp (mkScan i (Some (layer, mr)) mtch layerError)
          else if negb (bool_decide (is_Some route)) then
            (* process non-route handlers normally *)
            scan rest' path stp (mkScan i (Some (layer, mr)) mtch layerError)
          else if truthy layerError then
            (* routes do not match with a pending error *)
            scan rest' path stp (mkScan i (Some (layer, mr)) (VBool false) layerError)
          else
            scan rest' path stp (mkScan i (Some (layer, mr)) mtch layerError)
    end.

(** [var layerError = err === 'route' ? null : err] *)
Definition pending (err : value) : value :=
  if strict_eq err (VStr "route") then VNull else err.

(** *** Continuation steps

    Every handler is given [next] as its continuation, so each call of [next]
    ends either in another call of [next] or in a return to the caller. *)
Inductive Step : Type :=
| Again (m : Machine) (err : value)
| Halt (m : Machine).

(** [layer.handle_request(session, res, next)] / [layer.handle_error(...)] *)
Definition invoke (layer : Layer) (layerError : option value) (m : Machine) : Step :=
  let i := pred (idx m) in
  let s := session m in
  let m := log (match layerError with
                | Some e => EError i e s
                | None => ERequest i s
                end) m in
  match (match layerError with
         | Some e => handle_error layer e s
         | None => handle_request layer s
         end) with
  | HNext s' err => Again (set_session s' m) err
  | HStop s' => Halt (set_session s' m)
  end.

(** The body of [if (layerPath.length !== 0) { ... }] in [trim_prefix] past
    the separator check: trim the matched text off [session.url], ensure a
    leading slash, set up [session.baseUrl]. *)
Definition trim (entry : Session) (layerPath : string) (m : Machine) : Machine :=
  (* Trim off the part of the url that matches the route *)
  let m := set_removed layerPath m in
  let rm := removed m in
  let m := set_session (set_url (substr (String.length rm) (url (session m))) (session m)) m in
  (* Ensure leading slash *)
  let m :=
    if negb (bool_decide (char_at (url (session m)) 0 = Some slash))
    then set_slashAdded true (set_session (set_url ("/" +:+ url (session m)) (session m)) m)
    else m in
  (* Setup base URL (no trailing slash) *)
  let seg :=
    if bool_decide (char_at rm (String.length rm - 1) = Some slash)
    then substring0 (String.length rm - 1) rm
    else rm in
  set_session (set_baseUrl (Some (parentUrl entry +:+ seg)) (session m)) m.

(** [var c = path[layerPath.length]; if (c && c !== '/')] *)
Definition splits_segment (layerPath path : string) : bool :=
  match char_at path (String.length layerPath) with
  | Some c => negb (bool_decide (c = slash))
  | None => false
  end.

(** [trim_prefix(layer, layerError, layerPath, path)] *)
Definition trim_prefix (entry : Session) (m : Machine) (layer : Layer)
    (layerError : value) (layerPath path : string) : Step :=
  let nonempty := negb (String.length layerPath =? 0) in
  (* Validate path breaks on a path separator *)
  if nonempty && splits_segment layerPath path then Again m layerError
  else
    let m := if nonempty then trim entry layerPath m else m in
    if truthy layerError
    then invoke layer (Some layerError) m
    else invoke layer None m.

Section Dispatch.

(** [parseUrl(session.url).pathname] of Node's [url] module; [None] when the
    parser throws or yields no pathname ([path == null]). *)
Variable parseUrl_pathname : string -> option string.

(** [getPathname(session)] *)
Definition getPathname (s : Session) : option string := parseUrl_pathname (url s).

(** The body of [next(err)], up to the next call of [next]. *)
Definition next_body (r : Router) (entry : Session) (m : Machine) (err : value) : Step :=
  let stack := r_stack r in
  let layerError := pending err in
  let m := untrim entry m in
  (* signal to exit router *)
  if strict_eq layerError (VStr "router") then Halt (defer m VNull)
  (* no more matching layers *)
  else if length stack <=? idx m then Halt (defer m layerError)
  else
    (* get pathname of request *)
    match getPathname (session m) with
    | None => Halt (done entry m layerError)
    | Some path =>
        (* find next matching layer *)
        let sc := scan (drop (idx m) stack) path (step (session m))
                       (mkScan (idx m) None VUndef layerError) in
        let layerError := sc_error sc in
        let m := set_idx (sc_idx sc) m in
        let m := set_session (set_step (Some (idx m)) (session m)) m in
        match sc_layer sc with
        | None => Halt (done entry m layerError)
        | Some (layer, mr) =>
            (* no match *)
            if negb (strict_eq (sc_match sc) (VBool true)) then Halt (done entry m layerError)
            else
              let route := l_route layer in
              (* store route for dispatch on change *)
              let m :=
                match route with
                | Some _ => set_session (set_sroute route (session m)) m
                | None => m
                end in
              (* Capture one-time layer values *)
              let p :=
                if r_mergeParams r
                then mergeParams (m_params mr) (parentParams entry)
                else m_params mr in
              let m := set_session (set_params (Some p) (session m)) m in
              let layerPath := m_path mr in
              (* this should be done for the layer *)
              match process_params r layer (paramcalled m) p (session m) (trace m) with
              | PStalled called p' tr =>
                  Halt (set_trace tr (set_session (set_params (Some p') (session m))
                                        (set_paramcalled called m)))
              | PDone called p' tr perr =>
                  let m := set_trace tr (set_session (set_params (Some p') (session m))
                                          (set_paramcalled called m)) in
                  if truthy perr then Again m (js_or layerError perr)
                  else
                    match route with
                    | Some _ => invoke layer None m
                    | None => trim_prefix entry m layer layerError layerPath path
                    end
              end
        end
    end.

(** [next(err)] together with the calls of [next] that follow from it. *)
Fixpoint next (fuel : nat) (r : Router) (entry : Session) (m : Machine) (err : value)
    : option Machine :=
  match fuel with
  | 0 => None
  | S fuel' =>
      match next_body r entry m err with
      | Again m' err' => next fuel' r entry m' err'
      | Halt m' => Some m'
      end
  end.

Inductive Outcome : Type :=
| Threw (msg : string)
| Returned (m : Machine)
| Diverged.

(** [Router.prototype.handle(session, res, callback)]; [callback] tells
    whether the third argument is truthy.  Each call of [next] consumes at
    least one layer, see [handle_returns]. *)
Definition handle (r : Router) (s : Session) (callback : bool) : Outcome :=
  if negb callback then Threw "argument callback is required"
  else
    (* setup basic session values *)
    let s1 := set_baseUrl (Some (parentUrl s)) s in
    let s1 := set_originalUrl (Some (str_or (originalUrl s1) (url s1))) s1 in
    match next (S (length (r_stack r))) r s (mkMachine 0 "" false ∅ s1 [] []) VUndef with
    | Some m => Returned m
    | None => Diverged
    end.

(** The terminal callback's argument and the context it sees, once the
    scheduler has run what [handle] deferred. *)
Definition completion (entry : Session) (m : Machine) : option (value * Session) :=
  match filter (fun e => is_callback e = true) (trace (run_deferred entry m)) with
  | ECallback err s :: _ => Some (err, s)
  | _ => None
  end.

(** A router mounted as a handler: [function router(session, res, next)
    { router.handle(session, res, next) }].  The mounted router's terminal
    callback is the outer continuation. *)
Definition mount (r : Router) (s : Session) : HandlerResult :=
  match handle r s true with
  | Returned m =>
      match completion s m with
      | Some (err, s') => HNext s' err
      | None => HStop (session m)
      end
  | _ => HStop s
  end.

End Dispatch.

(** ** Registration: [use] *)

Section Registration.

(** JavaScript function values, and the constructor of [./lib/layer]. *)
Variable Fn : Type.

(** An argument of [use]: a function, a (nested) array, or another value. *)
#[warnings="-register-all"]
Inductive JsArg : Type :=
| JFun (f : Fn)
| JArr (items : list JsArg)
| JVal (v : value).

Record LayerOptions : Type := mkOptions {
  sensitive : bool;
  strict : bool;
  end_ : bool
}.

(** [new Layer(path, options, fn)] *)
Variable newLayer : JsArg -> LayerOptions -> Fn -> Layer.

(** [typeof a === 'function'] *)
Definition is_function (a : JsArg) : bool :=
  match a with JFun _ => true | _ => false end.

(** [while (Array.isArray(arg) && arg.length !== 0) { arg = arg[0] }] *)
Fixpoint first_leaf (arg : JsArg) : JsArg :=
  match arg with
  | JArr (x :: _) => first_leaf x
  | _ => arg
  end.

(** [flatten] of array-flatten: nested arrays are spliced in, in order. *)
Fixpoint flatten_arg (a : JsArg) : list JsArg :=
  match a with
  | JArr items =>
      (fix go (l : list JsArg) : list JsArg :=
         match l with
         | [] => []
         | x :: l' => flatten_arg x ++ go l'
         end) items
  | _ => [a]
  end.

Definition flatten (args : list JsArg) : list JsArg := flatten_arg (JArr args).

(** [layer.route = undefined] *)
Definition clear_route (l : Layer) : Layer :=
  mkLayer (l_match l) (l_keys l) None (handle_request l) (handle_error l).

(** The layers [use] pushes for the handlers [fns], in order. *)
Definition added (path : JsArg) (caseSensitive : bool) (fns : list Fn) : list Layer :=
  (fun f => clear_route (newLayer path (mkOptions caseSensitive false false) f)) <$> fns.

(** [for (var i = 0; i < callbacks.length; i++) { ... }]: the stack as the
    loop leaves it, and the message of the TypeError it threw, if any. *)
Fixpoint use_loop (path : JsArg) (caseSensitive : bool) (callbacks : list JsArg)
    (stack : list Layer) : list Layer * option string :=
  match callbacks with
  | [] => (stack, None)
  | JFun f :: rest =>
      (* add the middleware *)
      let layer := newLayer path (mkOptions caseSensitive false false) f in
      use_loop path caseSensitive rest (stack ++ [clear_route layer])
  | _ :: _ => (stack, Some "argument handler must be a function")
  end.

Definition set_stack (st : list Layer) (r : Router) : Router :=
  mkRouter (r_caseSensitive r) (r_mergeParams r) (r_params r) (r_strict r) st.

(** [Router.prototype.use], applied to its [arguments]: the router as the
    call leaves it, and the TypeError message if the call threw. *)
Definition use (r : Router) (arguments : list JsArg) : Router * option string :=
  let handler := default (JVal VUndef) (head arguments) in
  let '(offset, path) :=
    (* default path to '/', disambiguate router.use([handler]) *)
    if negb (is_function handler) then
      if negb (is_function (first_leaf handler))
      then (1, handler)                   (* first arg is the path *)
      else (0, JVal (VStr "/"))
    else (0, JVal (VStr "/")) in
  let callbacks := flatten (drop offset arguments) in
  if length callbacks =? 0 then (r, Some "argument handler is required")
  else
    let '(stack, thrown) := use_loop path (r_caseSensitive r) callbacks (r_stack r) in
    (set_stack stack r, thrown).

End Registration.

Arguments JFun {Fn} f.
Arguments JArr {Fn} items.
Arguments JVal {Fn} v.

(** ** Collaborators used in the worked examples *)

(** The pathname of an origin-form request target: the text before the first
    [?] or [#].  Targets that do not start with [/] are left unparsed. *)
Fixpoint before_query (s : string) : string :=
  match s with
  | EmptyString => EmptyString
  | String c s' =>
      if bool_decide (c = "?"%char) || bool_decide (c = "#"%char)
      then EmptyString
      else String c (before_query s')
  end.

Definition origin_pathname (u : string) : option string :=
  if bool_decide (char_at u 0 = Some slash) then Some (before_query u) else None.

(** A layer that matches every path that starts with [mountpath] and captures
    the parameters [captured]; the matched text is [mountpath] itself. *)
Definition prefix_layer (mountpath : string) (keys : list string) (captured : Params)
    (route : option string) (h : Session -> HandlerResult)
    (he : value -> Session -> HandlerResult) : Layer :=
  mkLayer
    (fun path =>
       if String.prefix mountpath path
       then mkMatch (VBool true) mountpath captured
       else mkMatch (VBool false) "" ∅)
    keys route h he.

(** Handlers: pass on ([next()]), pass an error on ([next(err)]), respond. *)
Definition pass : Session -> HandlerResult := fun s => HNext s VUndef.
Definition pass_error : value -> Session -> HandlerResult := fun e s => HNext s e.
Definition fail_with (e : value) : Session -> HandlerResult := fun s => HNext s e.
Definition respond : Session -> HandlerResult := fun s => HStop s.

(** A fresh context for the request target [u]. *)
Definition request (u : string) : Session := mkSession u None None None None None.

Definition router_of (merge : bool) (registry : gmap string (list ParamFn))
    (stack : list Layer) : Router :=
  mkRouter false merge registry false stack.

(** A layer that matches every path and captures nothing. *)
Definition any_layer (route : option string) (h : Session -> HandlerResult) : Layer :=
  prefix_layer "" [] ∅ route h pass_error.

(** The layer of [router.use('/users', handler)]. *)
Definition users_layer : Layer := prefix_layer "/users" [] ∅ None pass pass_error.

(** A parameter callback that records nothing and continues. *)
Definition load_id : ParamFn := fun _ _ _ => PNext None VUndef.

(** [router.use('/foo', handler)] *)
Definition foo_router : Router :=
  router_of false ∅ [prefix_layer "/foo" [] ∅ None pass pass_error].

(** Three plain layers on one path, capturing [id] as 1, 2 and 1 again (as
    the patterns [/:id/:x], [/:x/:id] and [/:id/:y] do on [/1/2]), with one
    callback registered by [router.param('id', load_id)]. *)
Definition aba_router : Router :=
  router_of false {["id" := [load_id]]}
    [ prefix_layer "" ["id"] {["id" := VStr "1"]} None pass pass_error;
      prefix_layer "" ["id"] {["id" := VStr "2"]} None pass pass_error;
      prefix_layer "" ["id"] {["id" := VStr "1"]} None pass pass_error ].

(** [inner.use(a, b, c)] where [c] calls [next(new Error('boom'))];
    [outer.use(inner); outer.route('/')] with a handler for every method. *)
Definition failing_inner : Router :=
  router_of false ∅
    [any_layer None pass; any_layer None pass; any_layer None (fail_with (VErr "boom"))].

Definition outer_with_route : Router :=
  router_of false ∅
    [any_layer None (mount origin_pathname failing_inner); any_layer (Some "/") pass].

(** [shared.use(a)]; [outer.use(shared); outer.use(shared)]. *)
Definition shared_router : Router := router_of false ∅ [any_layer None pass].

Definition outer_twice : Router :=
  router_of false ∅
    [any_layer None (mount origin_pathname shared_router);
     any_layer None (mount origin_pathname shared_router)].

(** ** Observations on a run *)

(** The direct calls of the terminal callback in a trace. *)
Definition callbacks (tr : list Event) : list Event :=
  filter (fun e => is_callback e = true) tr.

(** Calls of the terminal callback, made or handed to the scheduler. *)
Definition completions (m : Machine) : nat :=
  length (callbacks (trace m)) + length (deferred m).

(** The stack indices of the layers whose handler ran, in order. *)
Definition handled (tr : list Event) : list nat :=
  omap (fun e => match e with
                 | ERequest i _ => Some i
                 | EError i _ _ => Some i
                 | _ => None
                 end) tr.

Definition result_trace (pr : ParamsResult) : list Event :=
  match pr with
  | PDone _ _ tr _ => tr
  | PStalled _ _ tr => tr
  end.

(** Number of times a callback for [name] ran with the raw value [v]. *)
Definition is_param_run (name : string) (v : value) (e : Event) : bool :=
  match e with
  | EParamFn n w => bool_decide (n = name) && bool_decide (w = v)
  | _ => false
  end.

Definition param_runs (name : string) (v : value) (tr : list Event) : nat :=
  length (filter (fun e => is_param_run name v e = true) tr).

(** Handlers and parameter callbacks that always call their continuation. *)
Definition continues (r : Router) : Prop :=
  (∀ layer, layer ∈ r_stack r →
     (∀ s s', handle_request layer s ≠ HStop s')
     ∧ (∀ err s s', handle_error layer err s ≠ HStop s'))
  ∧ (∀ name fns fn, r_params r !! name = Some fns → fn ∈ fns →
       ∀ s v, fn s v name ≠ PStall).

(** Some handler or parameter callback of [r] can leave the dispatch waiting. *)
Definition waiting (r : Router) : Prop :=
  (∃ layer s s', layer ∈ r_stack r
     ∧ (handle_request layer s = HStop s' ∨ ∃ e, handle_error layer e s = HStop s'))
  ∨ (∃ layer called p s tr called' p' tr', layer ∈ r_stack r
     ∧ process_params r layer called p s tr = PStalled called' p' tr').

(** [n] is the first index that is not a property of [m]. *)
Definition first_missing (n : nat) (m : Params) : Prop :=
  m !! pretty n = None ∧ ∀ j : nat, j < n → is_Some (m !! pretty j).

(** The cached record answers for the value [v]: it was made for [v], or it
    holds an error other than ['route']. *)
Definition answers (pc : ParamCalled) (v : value) : Prop :=
  pc_match pc = v ∨ (truthy (pc_error pc) = true ∧ pc_error pc ≠ VStr "route").

(** The numeric entries of [m] are exactly the indices below [n]. *)
Definition contiguous (n : nat) (m : Params) : Prop :=
  ∀ j : nat, is_Some (m !! pretty j) ↔ j < n.

(** [baseUrl + url] is [originalUrl]. *)
Definition reconstructs (s : Session) : Prop :=
  originalUrl s = Some (str_or (baseUrl s) "" +:+ url s).

(** ** Properties as the specification words them *)

(** The terminal callback is never called from inside [handle]: when [handle]
    returns, the one call of it is waiting in the scheduler. *)
Definition completes_deferred (r : Router) (s : Session) : Prop :=
  ∀ m, handle origin_pathname r s true = Returned m →
       callbacks (trace m) = [] ∧ length (deferred m) = 1.

(** Every handler entered during the dispatch sees a context in which
    [baseUrl + url] reconstructs [originalUrl]. *)
Definition trimmed_url_reconstructs (r : Router) (s0 : Session) : Prop :=
  ∀ m i s, handle origin_pathname r s0 true = Returned m →
           ERequest i s ∈ trace m → reconstructs s.

(** In one dispatch the callbacks registered for a name run at most once for
    each value of that name. *)
Definition once_per_pair (r : Router) (s : Session) : Prop :=
  ∀ m name v fns,
    handle origin_pathname r s true = Returned m →
    r_params r !! name = Some fns →
    param_runs name v (trace m) ≤ length fns.

(** Every positional value of the parent is still found in the merged
    object. *)
Definition parent_values_kept (params parent : Params) : Prop :=
  ∀ (j : nat) v, parent !! pretty j = Some v →
                 ∃ k, mergeParams params (Some parent) !! k = Some v.

(** ** Registration: [param] *)

(** [if (a)] on an argument: functions and arrays are truthy. *)
Definition arg_truthy {Fn : Type} (a : JsArg Fn) : bool :=
  match a with
  | JVal v => truthy v
  | _ => true
  end.

Definition set_registry (reg : gmap string (list ParamFn)) (r : Router) : Router :=
  mkRouter (r_caseSensitive r) (r_mergeParams r) reg (r_strict r) (r_stack r).

(** What a call of [param] can throw: one of its own TypeErrors, or the
    engine's TypeError for [params.push] when [params] is not an array. *)
Inductive Thrown : Type :=
| ArgumentError (msg : string)
| PushNotAFunction.

Section ParamRegistration.

(** The property names a plain object inherits from [Object.prototype]
    ([constructor], [toString], [__proto__], ...).  [this.params] is created
    as [{}], so for such a name that is not an own property
    [this.params[name]] is an inherited value: truthy, and not an array. *)
Variable inherited : string -> bool.

(** [Router.prototype.param(name, fn)]: the router as the call leaves it, and
    what the call threw, if it threw. *)
Definition Router_param (r : Router) (name fn : JsArg ParamFn) : Router * option Thrown :=
  if negb (arg_truthy name) then (r, Some (ArgumentError "argument name is required"))
  else
    match name with
    | JVal (VStr n) =>
        if negb (arg_truthy fn) then (r, Some (ArgumentError "argument fn is required"))
        else
          match fn with
          | JFun f =>
              (* var params = this.params[name] *)
              match r_params r !! n with
              | Some params => (set_registry (<[n := params ++ [f]]> (r_params r)) r, None)
              | None =>
                  if inherited n then (r, Some PushNotAFunction)
                  else (set_registry (<[n := [] ++ [f]]> (r_params r)) r, None)
              end
          | _ => (r, Some (ArgumentError "argument fn must be a function"))
          end
    | _ => (r, Some (ArgumentError "argument name must be a string"))
    end.

End ParamRegistration.

(** ** Property names that are decimal numerals *)

Definition is_digit (c : ascii) : bool :=
  bool_decide (c ∈ ["0"; "1"; "2"; "3"; "4"; "5"; "6"; "7"; "8"; "9"]%char).

Fixpoint all_digits (s : string) : bool :=
  match s with
  | EmptyString => true
  | String c s' => is_digit c && all_digits s'
  end.

(** ** Properties of traces *)

(** What [handle] entered with [entry] may add to its trace while [idx] moves
    from [lo] to [hi]: parameter events, the handler of layer [hi - 1], an
    error handler only with a truthy error, and the terminal callback only
    on a context whose [baseUrl] and [params] are those of [entry]. *)
Definition event_ok (entry : Session) (e : Event) : Prop :=
  match e with
  | EParamFn _ _ => True
  | ERequest _ _ => True
  | EError _ err _ => truthy err = true
  | ECallback _ s => baseUrl s = baseUrl entry ∧ params s = params entry
  end.

(** The handler events of a trace name layers in strictly increasing order,
    all below [k]. *)
Definition increasing (l : list nat) : Prop :=
  ∀ i j a b, l !! i = Some a → l !! j = Some b → i < j → a < b.

Definition in_order (k : nat) (tr : list Event) : Prop :=
  increasing (handled tr) ∧ Forall (fun i => i < k) (handled tr).

(** The state a step of [next] leaves behind. *)
Definition machine_of (st : Step) : Machine :=
  match st with
  | Again m _ => m
  | Halt m => m
  end.

(** A layer that is not backed by a Route. *)
Definition plain (l : Layer) : Prop := l_route l = None.

(** * Verification *)

(** ** Parameter objects *)

Lemma has_true (k : string) (m : Params) : has k m = true ↔ is_Some (m !! k).
Proof. unfold has. by rewrite bool_decide_eq_true. Qed.

Lemma has_false (k : string) (m : Params) : has k m = false ↔ m !! k = None.
Proof. unfold has. by rewrite bool_decide_eq_false, eq_None_not_Some. Qed.

Lemma get_Some (m : Params) (k : string) (v : value) : m !! k = Some v → get m k = v.
Proof. unfold get. by intros ->. Qed.

Lemma pretty_ne (i j : nat) : i ≠ j → pretty i ≠ pretty j.
Proof. intros Hne Heq. by apply Hne, (inj pretty). Qed.

(** The indices [i .. g-1] are all present and the scan stops at a missing
    index unless the fuel ran out first. *)
Lemma numeric_gap_from_spec (fuel : nat) (m : Params) (i : nat) :
  let g := numeric_gap_from fuel m i in
  i ≤ g ≤ i + fuel
  ∧ (∀ j, i ≤ j < g → has (pretty j) m = true)
  ∧ (has (pretty g) m = false ∨ g = i + fuel).
Proof.
  revert i. induction fuel as [|fuel IH]; intros i; simpl.
  - repeat split; [lia.. | intros; lia | right; lia].
  - destruct (has (pretty i) m) eqn:Hi.
    + destruct (IH (S i)) as ((Hlo & Hhi) & Hall & Hend).
      repeat split; [lia.. | |].
      * intros j Hj. destruct (decide (j = i)) as [->|]; [done|]. apply Hall. lia.
      * destruct Hend; [by left | right; lia].
    + repeat split; [lia.. | intros; lia | by left].
Qed.

(** A map cannot hold more consecutive indices than it has entries. *)
Lemma indices_bounded (m : Params) (n : nat) :
  (∀ j, j < n → has (pretty j) m = true) → n ≤ size m.
Proof.
  intros Hall.
  assert (Hsub : list_to_set (C := gset string) (pretty <$> seq 0 n) ⊆ dom m).
  { intros k Hk. apply elem_of_list_to_set, list_elem_of_fmap in Hk as (j & -> & Hj).
    apply elem_of_seq in Hj. apply elem_of_dom, has_true, Hall. lia. }
  apply subseteq_size in Hsub.
  rewrite size_dom, size_list_to_set, length_fmap, length_seq in Hsub; [done|].
  apply NoDup_fmap_2; [apply _ | apply NoDup_seq].
Qed.

(** [numeric_gap] computes what the loop [while (i in m) i++] computes: the
    first index that is not a property of [m]. *)
Lemma numeric_gap_spec (m : Params) :
  (∀ j, j < numeric_gap m → has (pretty j) m = true)
  ∧ has (pretty (numeric_gap m)) m = false.
Proof.
  unfold numeric_gap.
  destruct (numeric_gap_from_spec (size m) m 0) as (Hb & Hall & Hend).
  split; [intros j Hj; apply Hall; lia|].
  destruct Hend as [|Hg]; [done|].
  destruct (has _ m) eqn:Hhas; [|done]. exfalso.
  assert (S (size m) ≤ size m); [|lia].
  apply indices_bounded. intros j Hj.
  destruct (decide (j = size m)) as [->|]; [by rewrite Hg in Hhas|].
  apply Hall. lia.
Qed.

Lemma numeric_gap_contiguous (n : nat) (m : Params) :
  contiguous n m → numeric_gap m = n.
Proof.
  intros Hc. destruct (numeric_gap_spec m) as (Hall & Hend).
  apply has_false in Hend.
  destruct (decide (numeric_gap m < n)) as [Hlt|Hge].
  - apply Hc in Hlt. rewrite Hend in Hlt. by destruct Hlt.
  - destruct (decide (n < numeric_gap m)) as [Hlt|]; [|lia].
    apply Hall, has_true, Hc in Hlt. lia.
Qed.

Section offset_numeric.
Variable o : nat.

Lemma offset_numeric_other (n : nat) (p : Params) (k : string) :
  (∀ j, j < n → k ≠ pretty (j + o)) →
  (∀ j, j < n → j < o → k ≠ pretty j) →
  offset_numeric n o p !! k = p !! k.
Proof.
  revert p. induction n as [|n IH]; intros p Hmoved Hdel; [done|].
  simpl. rewrite IH; [|intros; apply Hmoved; lia|intros; apply Hdel; lia].
  destruct (n <? o) eqn:Hno.
  - apply Nat.ltb_lt in Hno.
    rewrite lookup_delete_ne by (apply not_eq_sym, Hdel; lia).
    rewrite lookup_insert_ne by (apply not_eq_sym, Hmoved; lia). done.
  - rewrite lookup_insert_ne by (apply not_eq_sym, Hmoved; lia). done.
Qed.

Lemma offset_numeric_moved (n : nat) (p : Params) (j : nat) :
  j < n → offset_numeric n o p !! pretty (j + o) = Some (get p (pretty j)).
Proof.
  revert p. induction n as [|n IH]; intros p Hj; [lia|].
  simpl. destruct (decide (j = n)) as [->|Hne].
  - rewrite offset_numeric_other.
    + destruct (n <? o) eqn:Hno.
      * apply Nat.ltb_lt in Hno.
        rewrite lookup_delete_ne by (apply pretty_ne; lia).
        by rewrite lookup_insert_eq.
      * by rewrite lookup_insert_eq.
    + intros i Hi. apply pretty_ne. lia.
    + intros i Hi _. apply pretty_ne. lia.
  - rewrite IH by lia. f_equal. unfold get.
    destruct (n <? o).
    + rewrite lookup_delete_ne by (apply pretty_ne; lia).
      rewrite lookup_insert_ne by (apply pretty_ne; lia). done.
    + rewrite lookup_insert_ne by (apply pretty_ne; lia). done.
Qed.

Lemma offset_numeric_deleted (n : nat) (p : Params) (j : nat) :
  j < n → j < o → offset_numeric n o p !! pretty j = None.
Proof.
  revert p. induction n as [|n IH]; intros p Hj Hjo; [lia|].
  simpl. destruct (decide (j = n)) as [->|Hne].
  - rewrite offset_numeric_other.
    + apply Nat.ltb_lt in Hjo. rewrite Hjo. by rewrite lookup_delete_eq.
    + intros i Hi. apply pretty_ne. lia.
    + intros i Hi _. apply pretty_ne. lia.
  - apply IH; lia.
Qed.

End offset_numeric.

Lemma contiguous_singleton (v : value) : contiguous 1 {[pretty 0 := v]}.
Proof.
  intros j. destruct (decide (j = 0)) as [->|Hne].
  - rewrite lookup_singleton_eq. split; [lia | by eexists].
  - rewrite lookup_singleton_ne by (apply pretty_ne; lia).
    split; [by intros [? ?] | lia].
Qed.

(** C7 as stated fails when the parent's numeric entries have a hole.  With
    parent [{0: 'a', 2: 'c'}] and layer [{0: 'b', 1: 'd'}] the layer's entries
    are offset by the parent's first missing index (1), not past its highest
    one (2): the merged object is [{0: 'a', 1: 'b', 2: 'd'}] and ['c'] is
    lost. *)
Lemma mergeParams_collision :
  ¬ parent_values_kept
      (<[pretty 0 := VStr "b"]> (<[pretty 1 := VStr "d"]> ∅))
      (<[pretty 0 := VStr "a"]> (<[pretty 2 := VStr "c"]> ∅)).
Proof.
  intros Hkept.
  destruct (Hkept 2 (VStr "c")) as [k Hk]; [by vm_compute|].
  apply elem_of_map_to_list in Hk. vm_compute in Hk.
  repeat (apply elem_of_cons in Hk as [Hk|Hk]; [discriminate Hk|]).
  by apply elem_of_nil in Hk.
Qed.

Lemma contiguous_first_missing (n : nat) (m : Params) :
  contiguous n m → first_missing n m.
Proof.
  intros Hc. split.
  - apply eq_None_not_Some. intros Hs. apply Hc in Hs. lia.
  - intros j Hj. by apply Hc.
Qed.

Lemma first_missing_gap (n : nat) (m : Params) :
  first_missing n m → numeric_gap m = n.
Proof.
  intros [Hn Hbelow]. destruct (numeric_gap_spec m) as (Hall & Hend).
  apply has_false in Hend.
  destruct (decide (numeric_gap m < n)) as [Hlt|Hge].
  - apply Hbelow in Hlt. rewrite Hend in Hlt. by destruct Hlt.
  - destruct (decide (n < numeric_gap m)) as [Hlt|]; [|lia].
    apply Hall, has_true in Hlt. rewrite Hn in Hlt. by destruct Hlt.
Qed.

(** C7, amended: with mergeParams enabled, when both objects have numeric
    entries, [n] being the first index missing in the layer's object and [o]
    the first index missing in the parent's, the layer's entry [i < n] is
    found at index [i + o] of the merged object, the parent's entries below
    both [n] and [o] are kept, and every key that is not an index is merged
    by plain union with the layer's entry overriding the parent's.  When the
    layer's numeric entries are contiguous from 0, all the parent's entries
    below [o] are kept; when the parent's are contiguous too, these are all
    its numeric entries, so both sets are in the merged object at distinct
    indices. *)
Theorem mergeParams_offsets (params parent : Params) (n o : nat) :
  0 < n → 0 < o → first_missing n params → first_missing o parent →
  let merged := mergeParams params (Some parent) in
  (∀ i, i < n → merged !! pretty (i + o) = params !! pretty i)
  ∧ (∀ j, j < n → j < o → merged !! pretty j = parent !! pretty j)
  ∧ (∀ k, (∀ j : nat, k ≠ pretty j) → merged !! k = (params ∪ parent) !! k)
  ∧ (contiguous n params →
     (∀ j, j < o → merged !! pretty j = parent !! pretty j)
     ∧ (contiguous o parent →
        ∀ j, is_Some (merged !! pretty j) ↔ j < o + n)).
Proof.
  intros Hn Ho Hfn Hfo. unfold mergeParams, mixin.
  assert (Hp0 : has (pretty 0) params = true) by (by apply has_true, Hfn).
  assert (Hq0 : has (pretty 0) parent = true) by (by apply has_true, Hfo).
  rewrite Hp0, Hq0. simpl.
  rewrite (first_missing_gap n params Hfn), (first_missing_gap o parent Hfo).
  rewrite (right_id_L ∅ (∪)).
  assert (Hmoved : ∀ i, i < n →
            (offset_numeric n o params ∪ parent) !! pretty (i + o) = params !! pretty i).
  { intros i Hi. destruct (proj2 Hfn i Hi) as [v Hv].
    rewrite Hv. apply lookup_union_Some_l.
    rewrite offset_numeric_moved by done. by rewrite (get_Some _ _ _ Hv). }
  assert (Hkept : contiguous n params → ∀ j, j < o →
            (offset_numeric n o params ∪ parent) !! pretty j = parent !! pretty j).
  { intros Hcn j Hj. apply lookup_union_r.
    destruct (decide (j < n)) as [Hjn|Hjn]; [by apply offset_numeric_deleted|].
    rewrite offset_numeric_other.
    - apply eq_None_not_Some. intros Hs. apply Hcn in Hs. lia.
    - intros i Hi. apply pretty_ne. lia.
    - intros i Hi _. apply pretty_ne. lia. }
  split_and!.
  - exact Hmoved.
  - intros j Hjn Hjo. apply lookup_union_r. by apply offset_numeric_deleted.
  - intros k Hk. rewrite !lookup_union.
    by rewrite offset_numeric_other by (intros; apply Hk).
  - intros Hcn. split; [by apply Hkept|].
    intros Hco j. split.
    + intros Hsome. destruct (decide (j < o + n)) as [|Hge]; [done|]. exfalso.
      rewrite lookup_union in Hsome.
      rewrite offset_numeric_other in Hsome.
      * assert (params !! pretty j = None) as Hpj.
        { apply eq_None_not_Some. intros Hs. apply Hcn in Hs. lia. }
        assert (parent !! pretty j = None) as Hqj.
        { apply eq_None_not_Some. intros Hs. apply Hco in Hs. lia. }
        rewrite Hpj, Hqj in Hsome. by destruct Hsome.
      * intros i Hi. apply pretty_ne. lia.
      * intros i Hi _. apply pretty_ne. lia.
    + intros Hj. destruct (decide (j < o)) as [Hjo|Hjo].
      * rewrite Hkept by done. by apply Hco.
      * replace j with ((j - o) + o) by lia.
        rewrite Hmoved by lia. apply Hcn. lia.
Qed.

Lemma mergeParams_offsets_witness :
  mergeParams {[pretty 0 := VStr "b"]} (Some {[pretty 0 := VStr "a"]}) !! pretty 0
    = Some (VStr "a")
  ∧ mergeParams {[pretty 0 := VStr "b"]} (Some {[pretty 0 := VStr "a"]}) !! pretty 1
    = Some (VStr "b").
Proof.
  destruct (mergeParams_offsets {[pretty 0 := VStr "b"]} {[pretty 0 := VStr "a"]} 1 1)
    as (Hlayer & Hparent & _);
    [lia | lia | apply contiguous_first_missing, contiguous_singleton
     | apply contiguous_first_missing, contiguous_singleton |].
  split.
  - rewrite (Hparent 0) by lia. reflexivity.
  - etrans; [exact (Hlayer 0 ltac:(lia)) | reflexivity].
Defined.

(** ** The parameter pipeline *)

Lemma paramCallback_match fns name paramVal pc p s tr err :
  pc_match (paramCallback fns name paramVal pc p s tr err).1.1.1 = pc_match pc.
Proof.
  revert pc p tr err. induction fns as [|fn fns IH]; intros pc p tr err; simpl.
  - by destruct (truthy err).
  - destruct (truthy err); [done|].
    destruct (fn _ _ _); simpl; by rewrite ?IH.
Qed.

Lemma cache_hit_same (pc : ParamCalled) : cache_hit pc (pc_match pc) = true.
Proof. unfold cache_hit, strict_eq. by rewrite bool_decide_eq_true_2. Qed.

(** A cached record that answers for the current value ends the work on the
    key: the value is restored from the cache, the cached error is passed on,
    and the trace is handed on as it is. *)
Lemma param_cache_hit registry name keys called p s tr fns pc :
  registry !! name = Some fns →
  get p name ≠ VUndef →
  called !! name = Some pc →
  cache_hit pc (get p name) = true →
  param registry (name :: keys) called p s tr VUndef
  = param registry keys called (<[name := pc_value pc]> p) s tr (pc_error pc).
Proof.
  intros Hreg Hval Hcalled Hhit. simpl. rewrite Hreg, Hcalled, Hhit.
  unfold strict_eq. by rewrite bool_decide_eq_false_2.
Qed.

Lemma paramCallback_events fns name paramVal pc p s tr err :
  ∃ evs, (paramCallback fns name paramVal pc p s tr err).1.2 = tr ++ evs
         ∧ Forall (fun e => is_paramfn e = true) evs.
Proof.
  revert pc p tr err. induction fns as [|fn fns IH]; intros pc p tr err; simpl.
  - exists []. destruct (truthy err); by rewrite app_nil_r.
  - destruct (truthy err); [exists []; by rewrite app_nil_r|].
    assert (Hnext : ∀ upd e, ∃ evs,
      (paramCallback fns name paramVal
         (mkCalled (pc_error pc) (pc_match pc) (get p name)) (apply_upd name upd p) s
         (tr ++ [EParamFn name paramVal]) e).1.2 = tr ++ evs
      ∧ Forall (fun e => is_paramfn e = true) evs).
    { intros upd e.
      destruct (IH (mkCalled (pc_error pc) (pc_match pc) (get p name))
                   (apply_upd name upd p) (tr ++ [EParamFn name paramVal]) e)
        as (evs & -> & Hevs).
      exists (EParamFn name paramVal :: evs). split; [by rewrite <- app_assoc|].
      by constructor. }
    destruct (fn _ _ _) as [upd e|upd e|]; [apply Hnext..|].
    exists [EParamFn name paramVal]. split; [done|]. by repeat constructor.
Qed.

Lemma param_events registry keys called p s tr err :
  ∃ evs, result_trace (param registry keys called p s tr err) = tr ++ evs
         ∧ Forall (fun e => is_paramfn e = true) evs.
Proof.
  revert called p tr err. induction keys as [|name keys IH]; intros called p tr err; simpl.
  - exists []. destruct (truthy err); by rewrite app_nil_r.
  - destruct (truthy err); [exists []; by rewrite app_nil_r|].
    assert (Hrun : ∀ fns, ∃ evs,
      result_trace
        (let '(pc, p', tr', k) :=
           paramCallback fns name (get p name) (mkCalled VNull (get p name) (get p name))
                         p s tr VUndef in
         match k with
         | Some e => param registry keys (<[name:=pc]> called) p' s tr' e
         | None => PStalled (<[name:=pc]> called) p' tr'
         end) = tr ++ evs
      ∧ Forall (fun e => is_paramfn e = true) evs).
    { intros fns.
      destruct (paramCallback_events fns name (get p name)
                  (mkCalled VNull (get p name) (get p name)) p s tr VUndef)
        as (evs1 & Hevs1 & Hall1).
      destruct (paramCallback _ _ _ _ _ _ _ _) as [[[pc p'] tr'] k]. simpl in Hevs1.
      subst tr'. destruct k as [e|]; simpl; [|by exists evs1].
      destruct (IH (<[name:=pc]> called) p' (tr ++ evs1) e) as (evs2 & -> & Hall2).
      exists (evs1 ++ evs2). split; [by rewrite app_assoc|]. by apply Forall_app. }
    destruct (registry !! name) as [fns|]; [|apply IH].
    destruct (strict_eq _ _); [apply IH|].
    destruct (called !! name) as [pc0|]; [|apply Hrun].
    destruct (cache_hit _ _); [apply IH | apply Hrun].
Qed.

Lemma cache_hit_answers (pc : ParamCalled) (v : value) :
  cache_hit pc v = true ↔ answers pc v.
Proof.
  unfold cache_hit, answers, strict_eq.
  rewrite orb_true_iff, andb_true_iff, negb_true_iff,
    bool_decide_eq_true, bool_decide_eq_false.
  done.
Qed.




(** ** The scan loop *)

Lemma scan_found rest path stp st :
  sc_match st = VBool true → scan rest path stp st = st.
Proof. intros H. destruct rest; simpl; by rewrite H. Qed.

Lemma scan_idx rest path stp st :
  sc_idx st ≤ sc_idx (scan rest path stp st) ≤ sc_idx st + length rest.
Proof.
  revert st. induction rest as [|layer rest IH]; intros st; simpl.
  - destruct (strict_eq _ _); simpl; lia.
  - destruct (strict_eq (sc_match st) _); [simpl; lia|].
    repeat case_match;
      match goal with |- context [scan rest path stp ?st'] =>
        specialize (IH st'); simpl in IH; lia end.
Qed.

Lemma scan_progress layer rest path stp st :
  sc_match st ≠ VBool true →
  sc_idx st < sc_idx (scan (layer :: rest) path stp st).
Proof.
  intros Hm. simpl. unfold strict_eq at 1. rewrite bool_decide_eq_false_2 by done.
  repeat case_match;
    match goal with |- context [scan rest path stp ?st'] =>
      pose proof (scan_idx rest path stp st') as H'; simpl in H'; lia end.
Qed.

Lemma scan_layer rest path stp st layer mr :
  sc_layer (scan rest path stp st) = Some (layer, mr) →
  sc_layer st = Some (layer, mr) ∨ (layer ∈ rest ∧ mr = l_match layer path).
Proof.
  revert st. induction rest as [|l rest IH]; intros st; simpl.
  - destruct (strict_eq _ _); auto.
  - destruct (strict_eq (sc_match st) _); [auto|].
    repeat case_match; intros [Hst|[Hin ->]]%IH; simpl in *; simplify_eq;
      right; (split; [|done]); set_solver.
Qed.

Lemma scan_from_idx (stack : list Layer) i path stp e :
  i < length stack →
  let sc := scan (drop i stack) path stp (mkScan i None VUndef e) in
  i < sc_idx sc ≤ length stack.
Proof.
  intros Hi sc.
  pose proof (scan_idx (drop i stack) path stp (mkScan i None VUndef e)) as Hidx.
  rewrite length_drop in Hidx. simpl in Hidx. split; [|unfold sc; lia].
  unfold sc. destruct (drop i stack) as [|layer rest] eqn:Hdrop.
  - apply (f_equal length) in Hdrop. rewrite length_drop in Hdrop. simpl in Hdrop. lia.
  - by apply (scan_progress layer rest path stp (mkScan i None VUndef e)).
Qed.

(** ** The parameter pipeline appends parameter events only *)

Lemma callbacks_app tr1 tr2 : callbacks (tr1 ++ tr2) = callbacks tr1 ++ callbacks tr2.
Proof. apply filter_app. Qed.

Lemma callbacks_snoc_other tr ev :
  is_callback ev = false → callbacks (tr ++ [ev]) = callbacks tr.
Proof.
  intros Hev. unfold callbacks.
  rewrite filter_app, filter_cons_False, filter_nil, app_nil_r; [done|by rewrite Hev].
Qed.

Lemma paramCallback_callbacks fns name paramVal pc p s tr err :
  callbacks (paramCallback fns name paramVal pc p s tr err).1.2 = callbacks tr.
Proof.
  revert pc p tr err. induction fns as [|fn fns IH]; intros pc p tr err; simpl.
  - by destruct (truthy err).
  - destruct (truthy err); [done|].
    destruct (fn _ _ _); simpl; rewrite ?IH; by apply callbacks_snoc_other.
Qed.

Lemma param_callbacks registry keys called p s tr err :
  callbacks (result_trace (param registry keys called p s tr err)) = callbacks tr.
Proof.
  revert called p tr err. induction keys as [|name keys IH]; intros called p tr err; simpl.
  - by destruct (truthy err).
  - destruct (truthy err); [done|].
    assert (Hrun : ∀ fns,
      callbacks (result_trace
        (let '(pc, p', tr', k) :=
           paramCallback fns name (get p name) (mkCalled VNull (get p name) (get p name))
                         p s tr VUndef in
         match k with
         | Some e => param registry keys (<[name:=pc]> called) p' s tr' e
         | None => PStalled (<[name:=pc]> called) p' tr'
         end)) = callbacks tr).
    { intros fns.
      pose proof (paramCallback_callbacks fns name (get p name)
                    (mkCalled VNull (get p name) (get p name)) p s tr VUndef) as Hcb.
      destruct (paramCallback _ _ _ _ _ _ _ _) as [[[pc p'] tr'] k]. simpl in Hcb.
      destruct k; simpl; by rewrite ?IH. }
    destruct (registry !! name) as [fns|]; [|apply IH].
    destruct (strict_eq _ _); [apply IH|].
    destruct (called !! name) as [pc0|]; [|apply Hrun].
    destruct (cache_hit _ _); [apply IH | apply Hrun].
Qed.

Lemma process_params_callbacks rt layer called p s tr :
  callbacks (result_trace (process_params rt layer called p s tr)) = callbacks tr.
Proof.
  unfold process_params. destruct (l_keys layer); [done|]. apply param_callbacks.
Qed.

Lemma paramCallback_continues fns name paramVal pc p s tr err :
  (∀ fn, fn ∈ fns → ∀ s v, fn s v name ≠ PStall) →
  is_Some (paramCallback fns name paramVal pc p s tr err).2.
Proof.
  revert pc p tr err. induction fns as [|fn fns IH]; intros pc p tr err Hfns; simpl.
  - destruct (truthy err); by eexists.
  - destruct (truthy err); [by eexists|].
    destruct (fn _ _ _) eqn:Hfn; simpl.
    + apply IH. intros; apply Hfns; set_solver.
    + apply IH. intros; apply Hfns; set_solver.
    + exfalso. eapply Hfns; [|done]. set_solver.
Qed.

Lemma param_continues registry keys called p s tr err :
  (∀ name fns fn, registry !! name = Some fns → fn ∈ fns → ∀ s v, fn s v name ≠ PStall) →
  ∃ called' p' tr' e, param registry keys called p s tr err = PDone called' p' tr' e.
Proof.
  intros Hreg.
  revert called p tr err. induction keys as [|name keys IH]; intros called p tr err; simpl.
  - destruct (truthy err); eauto.
  - destruct (truthy err); [eauto|].
    destruct (registry !! name) as [fns|] eqn:Hfns; [|apply IH].
    assert (Hrun :
      ∃ called' p' tr' e,
        (let '(pc, p', tr', k) :=
           paramCallback fns name (get p name) (mkCalled VNull (get p name) (get p name))
                         p s tr VUndef in
         match k with
         | Some e => param registry keys (<[name:=pc]> called) p' s tr' e
         | None => PStalled (<[name:=pc]> called) p' tr'
         end) = PDone called' p' tr' e).
    { pose proof (paramCallback_continues fns name (get p name)
                    (mkCalled VNull (get p name) (get p name)) p s tr VUndef) as Hk.
      destruct (paramCallback _ _ _ _ _ _ _ _) as [[[pc p'] tr'] k]. simpl in Hk.
      destruct Hk as [e ->]; [intros fn Hfn; by eapply Hreg|]. apply IH. }
    destruct (strict_eq _ _); [apply IH|].
    destruct (called !! name) as [pc0|]; [|apply Hrun].
    destruct (cache_hit _ _); [apply IH | apply Hrun].
Qed.

Section Continuation.
Variable pathname : string -> option string.
Variable r : Router.
Variable entry : Session.

Lemma untrim_idx m : idx (untrim entry m) = idx m.
Proof. unfold untrim. by repeat case_match. Qed.

Lemma untrim_trace m : trace (untrim entry m) = trace m.
Proof. unfold untrim. by repeat case_match. Qed.

Lemma untrim_deferred m : deferred (untrim entry m) = deferred m.
Proof. unfold untrim. by repeat case_match. Qed.

Lemma trim_idx layerPath m : idx (trim entry layerPath m) = idx m.
Proof. unfold trim. by repeat case_match. Qed.

Lemma trim_trace layerPath m : trace (trim entry layerPath m) = trace m.
Proof. unfold trim. by repeat case_match. Qed.

Lemma trim_deferred layerPath m : deferred (trim entry layerPath m) = deferred m.
Proof. unfold trim. by repeat case_match. Qed.

Lemma invoke_again layer e m m' err :
  invoke layer e m = Again m' err →
  idx m' = idx m ∧ deferred m' = deferred m
  ∧ ∃ ev, trace m' = trace m ++ [ev] ∧ is_callback ev = false.
Proof.
  unfold invoke. intros H. repeat case_match; simplify_eq; simpl; eauto 6.
Qed.

Lemma invoke_halt layer e m m' :
  invoke layer e m = Halt m' →
  deferred m' = deferred m
  ∧ (∃ ev, trace m' = trace m ++ [ev] ∧ is_callback ev = false)
  ∧ ∃ s s', match e with
            | Some err => handle_error layer err s
            | None => handle_request layer s
            end = HStop s'.
Proof.
  unfold invoke. intros H. repeat case_match; simplify_eq; simpl; eauto 8.
Qed.

Lemma trim_prefix_again m layer layerError layerPath path m' err :
  trim_prefix entry m layer layerError layerPath path = Again m' err →
  idx m' = idx m ∧ deferred m' = deferred m
  ∧ callbacks (trace m') = callbacks (trace m).
Proof.
  unfold trim_prefix. intros H.
  repeat case_match; simplify_eq; try done;
    apply invoke_again in H as (Hi & Hd & ev & Ht & Hev);
    rewrite ?trim_idx, ?trim_deferred, ?trim_trace in *;
    (repeat split; [done..|]);
    unfold callbacks; rewrite Ht, filter_app, filter_cons_False, filter_nil, app_nil_r;
    done || by rewrite Hev.
Qed.


Lemma next_body_again m err m' err' :
  next_body pathname r entry m err = Again m' err' →
  idx m < idx m' ≤ length (r_stack r)
  ∧ deferred m' = deferred m
  ∧ callbacks (trace m') = callbacks (trace m).
Proof.
  unfold next_body. cbv zeta.
  set (layerError := pending err).
  destruct (strict_eq layerError _); [done|].
  destruct (_ <=? _) eqn:Hlen; [done|].
  apply Nat.leb_gt in Hlen. rewrite untrim_idx in Hlen.
  destruct (getPathname _ _) as [path|]; [|done].
  rewrite !untrim_idx.
  pose proof (scan_from_idx (r_stack r) (idx m) path (step (session (untrim entry m)))
                layerError Hlen) as Hidx.
  simpl in Hidx.
  destruct (sc_layer _) as [[layer mr]|]; [|done].
  destruct (negb _); [done|].
  destruct (l_route layer) as [rt|] eqn:Hroute;
    (match goal with |- context [process_params ?a ?b ?c ?d ?e ?f] =>
      pose proof (process_params_callbacks a b c d e f) as Hpp;
      destruct (process_params a b c d e f) as [called p' tr perr|] end; [|done]);
    simpl in Hpp; rewrite untrim_trace in Hpp;
    (destruct (truthy perr);
     [ intros [= <- <-]; simpl; rewrite untrim_deferred; split_and!; done || lia | ]).
  - intros (Hi & Hd & ev & Ht & Hev)%invoke_again. simpl in *.
    rewrite Hi, Hd, Ht, callbacks_snoc_other, untrim_deferred by done.
    split_and!; done || lia.
  - intros (Hi & Hd & Hc)%trim_prefix_again. simpl in *.
    rewrite Hi, Hd, Hc, untrim_deferred.
    split_and!; done || lia.
Qed.

Lemma done_completions m e :
  callbacks (trace (done entry m e)) = callbacks (trace m) ++ [ECallback e (restore entry (session m))]
  ∧ deferred (done entry m e) = deferred m.
Proof. unfold done, log. simpl. by rewrite callbacks_app. Qed.

Lemma trim_prefix_halt m layer layerError layerPath path m' :
  trim_prefix entry m layer layerError layerPath path = Halt m' →
  deferred m' = deferred m
  ∧ callbacks (trace m') = callbacks (trace m)
  ∧ ∃ s s', handle_request layer s = HStop s' ∨ ∃ e, handle_error layer e s = HStop s'.
Proof.
  unfold trim_prefix. intros H.
  repeat case_match; simplify_eq;
    apply invoke_halt in H as (Hd & (ev & Ht & Hev) & s & s' & Hs);
    rewrite ?trim_deferred, ?trim_trace in *;
    rewrite Hd, Ht, callbacks_snoc_other by done; eauto 10.
Qed.

(** A call of [next] that returns to its caller has completed the dispatch
    once, or was left waiting by a handler or parameter callback. *)
Lemma next_body_halt m err m' :
  next_body pathname r entry m err = Halt m' →
  callbacks (trace m) = [] → deferred m = [] →
  completions m' = 1 ∨ (completions m' = 0 ∧ waiting r).
Proof.
  intros Hstep Htr Hdf. unfold waiting. revert Hstep.
  assert (Hdone : ∀ x e, callbacks (trace x) = [] → deferred x = [] →
                         completions (done entry x e) = 1).
  { intros x e Hx1 Hx2. unfold completions.
    destruct (done_completions x e) as [-> ->]. by rewrite Hx1, Hx2. }
  assert (Hdefer : ∀ e, completions (defer (untrim entry m) e) = 1).
  { intros e. unfold completions, defer. simpl.
    by rewrite untrim_trace, untrim_deferred, Htr, Hdf. }
  unfold next_body. cbv zeta.
  set (layerError := pending err).
  destruct (strict_eq layerError _); [intros [= <-]; by left|].
  destruct (_ <=? _) eqn:Hlen; [intros [= <-]; by left|].
  apply Nat.leb_gt in Hlen. rewrite untrim_idx in Hlen.
  destruct (getPathname _ _) as [path|];
    [|intros [= <-]; left; apply Hdone; by rewrite ?untrim_trace, ?untrim_deferred].
  rewrite !untrim_idx.
  destruct (sc_layer _) as [[layer mr]|] eqn:Hlayer;
    [|intros [= <-]; left; apply Hdone; simpl; by rewrite ?untrim_trace, ?untrim_deferred].
  apply scan_layer in Hlayer as [Hlayer|[Hin _]]; [done|].
  apply (subseteq_drop _ _ layer) in Hin.
  destruct (negb _);
    [intros [= <-]; left; apply Hdone; simpl; by rewrite ?untrim_trace, ?untrim_deferred|].
  destruct (l_route layer) as [rt|] eqn:Hroute;
    (match goal with |- context [process_params ?a ?b ?c ?d ?e ?f] =>
      pose proof (process_params_callbacks a b c d e f) as Hpp;
      destruct (process_params a b c d e f) as [called p' tr perr|called p' tr] eqn:Hrun end;
     simpl in Hpp; rewrite untrim_trace, Htr in Hpp;
     [ destruct (truthy perr); [done|]
     | intros [= <-]; right; unfold completions; simpl;
       rewrite Hpp, untrim_deferred, Hdf; split; [done|]; right; eauto 12 ]).
  - intros (Hd & (ev & Ht & Hev) & s & s' & Hs)%invoke_halt. simpl in *.
    right. unfold completions.
    rewrite Hd, Ht, callbacks_snoc_other, Hpp, untrim_deferred, Hdf by done.
    split; [done|]. left. eauto 10.
  - intros (Hd & Hc & s & s' & Hs)%trim_prefix_halt. simpl in *.
    right. unfold completions. rewrite Hd, Hc, Hpp, untrim_deferred, Hdf.
    split; [done|]. left. eauto 10.
Qed.

Lemma next_total fuel m err :
  length (r_stack r) - idx m < fuel →
  ∃ m', next pathname fuel r entry m err = Some m'.
Proof.
  revert m err. induction fuel as [|fuel IH]; intros m err Hfuel; [lia|].
  simpl. destruct (next_body pathname r entry m err) as [m1 err1|m1] eqn:Hstep; [|eauto].
  apply next_body_again in Hstep as (Hidx & _). apply IH. lia.
Qed.

(** What holds of every state [next] continues from, and is established
    whenever [next] returns, holds of the result. *)
Lemma next_invariant (P Q : Machine → Prop) :
  (∀ m err m' err', P m → next_body pathname r entry m err = Again m' err' → P m') →
  (∀ m err m', P m → next_body pathname r entry m err = Halt m' → Q m') →
  ∀ fuel m err m', P m → next pathname fuel r entry m err = Some m' → Q m'.
Proof.
  intros Hagain Hhalt. induction fuel as [|fuel IH]; intros m err m' HP; [done|].
  simpl. destruct (next_body pathname r entry m err) as [m1 err1|m1] eqn:Hstep.
  - apply IH. by eapply Hagain.
  - intros [= <-]. by eapply Hhalt.
Qed.

End Continuation.

Lemma process_params_continues r layer called p s tr :
  continues r →
  ∃ called' p' tr' e, process_params r layer called p s tr = PDone called' p' tr' e.
Proof.
  intros [_ Hfns]. unfold process_params. destruct (l_keys layer); [eauto|].
  by apply param_continues.
Qed.

Lemma continues_not_waiting r : continues r → ¬ waiting r.
Proof.
  intros Hcont [(layer & s1 & s2 & Hin & Hstop)
               |(layer & called & p & s1 & tr & c' & p' & tr' & Hin & Hstall)].
  - destruct Hcont as [Hlayers _]. destruct (Hlayers layer Hin) as [Hreq Herr].
    destruct Hstop as [Hstop|[e Hstop]]; [by eapply Hreq | by eapply Herr].
  - destruct (process_params_continues r layer called p s1 tr Hcont)
      as (? & ? & ? & ? & Hdone).
    congruence.
Qed.

Lemma handle_returns pathname r s : ∃ m, handle pathname r s true = Returned m.
Proof.
  unfold handle. lazy beta iota zeta delta [negb].
  match goal with |- context [next pathname ?f r s ?m ?e] =>
    destruct (next_total pathname r s f m e) as [m' ->]; [simpl; lia | eauto] end.
Qed.

(** ** Strings *)

Lemma append_cons c a b : String c a +:+ b = String c (a +:+ b).
Proof. reflexivity. Qed.

Lemma append_assoc a b c : (a +:+ b) +:+ c = a +:+ (b +:+ c).
Proof. induction a as [|x a IH]; [done|]. by rewrite !append_cons, IH. Qed.

Lemma substr_append a b : substr (String.length a) (a +:+ b) = b.
Proof. induction a as [|x a IH]; [done|]. rewrite append_cons. simpl. apply IH. Qed.

Lemma length_nonempty a : a ≠ "" → (String.length a =? 0) = false.
Proof. destruct a; [done|]. by intros _. Qed.

(** ** Completion of a dispatch *)


Section Paths.
Variable pathname : string -> option string.
Variable r : Router.


End Paths.

Lemma foo_router_continues : continues foo_router.
Proof.
  split.
  - intros layer Hin. apply list_elem_of_singleton in Hin as ->. by split.
  - intros name fns fn Hfns. simpl in Hfns. by rewrite lookup_empty in Hfns.
Qed.


(** ** Prefix trimming *)

(** C3: for a plain layer with a non-empty matched prefix, [trim_prefix]
    calls [next(layerError)] on an untouched state (nothing trimmed, no
    handler event) when the character after the prefix exists and is not
    ['/']; when that character is absent or ['/'] it trims and invokes the
    layer's handler. *)
Theorem trim_prefix_segment_boundary entry m layer layerError layerPath path :
  layerPath ≠ "" →
  (∀ c, char_at path (String.length layerPath) = Some c → c ≠ slash →
        trim_prefix entry m layer layerError layerPath path = Again m layerError)
  ∧ (char_at path (String.length layerPath) = None
     ∨ char_at path (String.length layerPath) = Some slash →
     trim_prefix entry m layer layerError layerPath path
     = invoke layer (if truthy layerError then Some layerError else None)
              (trim entry layerPath m)).
Proof.
  intros Hne. unfold trim_prefix, splits_segment.
  rewrite (length_nonempty _ Hne). simpl. split.
  - intros c -> Hc. by rewrite bool_decide_eq_false_2.
  - intros [-> | ->]; simpl; by destruct (truthy layerError).
Qed.

Lemma trim_prefix_segment_boundary_witness :
  trim_prefix (request "/foobar")
    (mkMachine 1 "" false ∅ (request "/foobar") [] [])
    (any_layer None pass) VUndef "/foo" "/foobar"
  = Again (mkMachine 1 "" false ∅ (request "/foobar") [] []) VUndef.
Proof.
  destruct (trim_prefix_segment_boundary (request "/foobar")
              (mkMachine 1 "" false ∅ (request "/foobar") [] [])
              (any_layer None pass) VUndef "/foo" "/foobar") as [Hreject _];
    [discriminate|].
  apply (Hreject "b"%char); [reflexivity | discriminate].
Defined.

(** The example of the specification: [use('/foo', handler)] and a request
    to [/foobar]. *)
Example foobar_not_handled :
  ∃ m, handle origin_pathname foo_router (request "/foobar") true = Returned m
       ∧ handled (trace m) = [] ∧ deferred m = [VUndef].
Proof. eexists. split; [by vm_compute | by vm_compute]. Qed.

(** C4 as stated fails: for [use('/foo', h)] and a request to [/foo] the
    handler sees [url = '/'] (the slash is synthesized), [baseUrl = '/foo']
    and [originalUrl = '/foo']. *)
Lemma trimmed_slash_breaks_reconstruction :
  ¬ trimmed_url_reconstructs foo_router (request "/foo").
Proof.
  intros Hclaim.
  assert (∃ m s, handle origin_pathname foo_router (request "/foo") true = Returned m
                 ∧ trace m = [ERequest 0 s]
                 ∧ (url s, baseUrl s, originalUrl s) = ("/", Some "/foo", Some "/foo"))
    as (m & s & Hm & Htr & Hs).
  { do 2 eexists. split_and!; by vm_compute. }
  specialize (Hclaim m 0 s Hm). rewrite Htr in Hclaim.
  specialize (Hclaim ltac:(set_solver)). unfold reconstructs in Hclaim.
  injection Hs as Hu Hb Ho. rewrite Hu, Hb, Ho in Hclaim. discriminate Hclaim.
Qed.

(** C4, amended: when a prefix [layerPath] of the url is trimmed, the next
    call of [next] restores the url and the parent's [baseUrl]; and while the
    prefix is trimmed, [baseUrl + url] reconstructs [originalUrl] provided
    the text after the prefix starts with ['/'] (no slash is synthesized) and
    the prefix does not end with ['/'] (none is dropped from [baseUrl]). *)
Theorem trim_keeps_originalUrl entry m layerPath rest :
  layerPath ≠ "" →
  slashAdded m = false →
  url (session m) = layerPath +:+ rest →
  originalUrl (session m) = Some (parentUrl entry +:+ url (session m)) →
  let m' := trim entry layerPath m in
  (url (session (untrim entry m')) = url (session m)
   ∧ baseUrl (session (untrim entry m')) = Some (parentUrl entry))
  ∧ (char_at rest 0 = Some slash →
     char_at layerPath (String.length layerPath - 1) ≠ Some slash →
     reconstructs (session m')).
Proof.
  intros Hne Hslash Hurl Horig m'. subst m'. unfold trim, reconstructs. simpl.
  rewrite Hurl, substr_append. split.
  - unfold untrim.
    destruct (bool_decide (char_at rest 0 = Some slash)); simpl;
      rewrite ?Hslash; simpl; by rewrite (length_nonempty _ Hne).
  - intros Hrest Hlast.
    rewrite (bool_decide_eq_true_2 _ Hrest), (bool_decide_eq_false_2 _ Hlast). simpl.
    rewrite Horig, Hurl. f_equal.
    destruct (bool_decide (parentUrl entry +:+ layerPath = "")) eqn:Hempty.
    + apply bool_decide_eq_true in Hempty.
      destruct (parentUrl entry), layerPath; done.
    + by rewrite append_assoc.
Qed.

Lemma trim_keeps_originalUrl_witness :
  reconstructs
    (session (trim (request "/foo/bar") "/foo"
                (mkMachine 1 "" false ∅
                   (mkSession "/foo/bar" (Some "/foo/bar") (Some "") None (Some 1) None)
                   [] []))).
Proof.
  destruct (trim_keeps_originalUrl (request "/foo/bar")
              (mkMachine 1 "" false ∅
                 (mkSession "/foo/bar" (Some "/foo/bar") (Some "") None (Some 1) None)
                 [] [])
              "/foo" "/bar") as [_ Hinv];
    [discriminate | reflexivity | reflexivity | reflexivity |].
  apply Hinv; [reflexivity | discriminate].
Defined.

(** ** Control signals *)

(** C8: [next('router')] returns at once, having handed [done(null)] to the
    scheduler: the scan index and the trace are unchanged (no layer is
    scanned, no handler runs), and when the scheduler runs, the terminal
    callback is called with [null]. *)
Theorem next_router_aborts pathname fuel r entry m :
  let m' := defer (untrim entry m) VNull in
  next pathname (S fuel) r entry m (VStr "router") = Some m'
  ∧ idx m' = idx m
  ∧ trace m' = trace m
  ∧ deferred m' = deferred m ++ [VNull]
  ∧ ∃ tr s, trace (run_deferred entry m') = tr ++ [ECallback VNull s].
Proof.
  intros m'. subst m'. split_and!.
  - done.
  - simpl. apply untrim_idx.
  - simpl. apply untrim_trace.
  - simpl. by rewrite untrim_deferred.
  - unfold run_deferred. simpl. rewrite fold_left_app. simpl.
    unfold done at 1, log. simpl. eauto.
Qed.

(** With no error pending, the scan passes over the layers that do not match
    and stops on the first that does, route-backed or not. *)
Lemma scan_reaches_match pre layer post path stp st :
  sc_match st ≠ VBool true →
  sc_error st = VNull →
  (∀ l, l ∈ pre → matchLayer l path = VBool false) →
  matchLayer layer path = VBool true →
  scan (pre ++ layer :: post) path stp st
  = mkScan (sc_idx st + S (length pre)) (Some (layer, l_match layer path)) (VBool true) VNull.
Proof.
  revert st. induction pre as [|l pre IH]; intros st Hst Herr Hpre Hmatch; simpl;
    (assert (Hf : strict_eq (sc_match st) (VBool true) = false)
       by (unfold strict_eq; by rewrite bool_decide_eq_false_2));
    rewrite Hf.
  - rewrite Hmatch, Herr. simpl. rewrite Nat.add_1_r.
    destruct (lt_step _ _); [by rewrite scan_found|].
    destruct (negb (bool_decide (is_Some (l_route layer)))); by rewrite scan_found.
  - rewrite (Hpre l) by (by apply elem_of_cons; left). simpl.
    assert (Hrest : ∀ l0, l0 ∈ pre → matchLayer l0 path = VBool false).
    { intros l0 Hl0. apply Hpre. by apply elem_of_cons; right. }
    destruct (lt_step _ _);
      rewrite IH by done; simpl; f_equal; lia.
Qed.

(** C9: [next('route')] behaves as [next(null)], and the pending error it
    leaves is falsy.  So the dispatch goes on: when the stack is exhausted
    the terminal callback is deferred with [null], not with ['route'];
    otherwise the scan passes over the layers that do not match and the next
    layer that matches is selected, route-backed or not; [session.step]
    becomes the index past it, and (for a layer without parameter keys) a
    route-backed layer has its handler invoked as for a normal request,
    while a plain layer goes to [trim_prefix] with no error. *)
Theorem next_route_signal pathname fuel r entry m :
  next pathname fuel r entry m (VStr "route") = next pathname fuel r entry m VNull
  ∧ truthy (pending (VStr "route")) = false
  ∧ (∀ layer rest path stp i,
       matchLayer layer path = VBool true →
       let sc := scan (layer :: rest) path stp
                      (mkScan i None VUndef (pending (VStr "route"))) in
       sc_match sc = VBool true ∧ sc_idx sc = S i
       ∧ sc_layer sc = Some (layer, l_match layer path))
  ∧ (length (r_stack r) ≤ idx m →
     next_body pathname r entry m (VStr "route") = Halt (defer (untrim entry m) VNull))
  ∧ (∀ pre layer post path,
       drop (idx m) (r_stack r) = pre ++ layer :: post →
       getPathname pathname (session (untrim entry m)) = Some path →
       (∀ l, l ∈ pre → matchLayer l path = VBool false) →
       matchLayer layer path = VBool true →
       l_keys layer = [] →
       ∃ m_in,
         next_body pathname r entry m (VStr "route")
         = match l_route layer with
           | Some _ => invoke layer None m_in
           | None => trim_prefix entry m_in layer VNull (m_path (l_match layer path)) path
           end
         ∧ idx m_in = idx m + S (length pre)
         ∧ step (session m_in) = Some (idx m_in)
         ∧ trace m_in = trace m
         ∧ deferred m_in = deferred m
         ∧ (∀ rt, l_route layer = Some rt → sroute (session m_in) = Some rt)).
Proof.
  split_and!.
  - destruct fuel as [|fuel]; [done|]. simpl. unfold next_body. done.
  - done.
  - intros layer rest path stp i Hmatch sc. subst sc. simpl.
    rewrite Hmatch. simpl.
    destruct (lt_step (S i) stp); [by rewrite scan_found|].
    destruct (negb (bool_decide (is_Some (l_route layer)))); by rewrite scan_found.
  - intros Hlen. unfold next_body. cbv zeta.
    change (pending (VStr "route")) with VNull.
    change (strict_eq VNull (VStr "router")) with false. cbv iota.
    rewrite untrim_idx. by apply Nat.leb_le in Hlen as ->.
  - intros pre layer post path Hdrop Hpath Hpre Hmatch Hkeys.
    assert (Hlen : idx m < length (r_stack r)).
    { apply (f_equal length) in Hdrop. rewrite length_drop, length_app in Hdrop.
      simpl in Hdrop. lia. }
    unfold next_body. cbv zeta.
    change (pending (VStr "route")) with VNull.
    change (strict_eq VNull (VStr "router")) with false. cbv iota.
    rewrite !untrim_idx. apply Nat.leb_gt in Hlen as ->. rewrite Hpath, Hdrop.
    rewrite scan_reaches_match by done. simpl.
    unfold process_params. rewrite Hkeys. simpl.
    destruct (l_route layer) as [rt|]; simpl;
      (eexists; split; [reflexivity|]); simpl;
      rewrite untrim_trace, untrim_deferred; split_and!; try done.
    all: by intros ? [= ->].
Qed.

Lemma next_route_signal_witness :
  ∃ m_in,
    next_body origin_pathname
      (router_of false ∅ [users_layer; any_layer (Some "/") pass])
      (request "/")
      (mkMachine 0 "" false ∅ (request "/") [] []) (VStr "route")
    = invoke (any_layer (Some "/") pass) None m_in
    ∧ idx m_in = 2.
Proof.
  destruct (next_route_signal origin_pathname 1
              (router_of false ∅ [users_layer; any_layer (Some "/") pass])
              (request "/") (mkMachine 0 "" false ∅ (request "/") [] []))
    as (_ & _ & _ & _ & Hgo).
  destruct (Hgo [users_layer] (any_layer (Some "/") pass) [] "/")
    as (m_in & Hstep & Hidx & _); [reflexivity | reflexivity | | reflexivity..|].
  - intros l Hl. apply list_elem_of_singleton in Hl as ->. reflexivity.
  - exists m_in. split; [exact Hstep | exact Hidx].
Defined.

(** The step guard leaves a matching layer selected, whatever its index, its
    route and the pending error: [continue] re-tests [match !== true]. *)
Lemma scan_step_guard_selects layer rest path k i e :
  S i < k → matchLayer layer path = VBool true →
  scan (layer :: rest) path (Some k) (mkScan i None VUndef e)
  = mkScan (S i) (Some (layer, l_match layer path)) (VBool true) e.
Proof.
  intros Hk Hmatch. simpl.
  apply Nat.ltb_lt in Hk. rewrite Hk, Hmatch. by rewrite scan_found.
Qed.

(** Where the step counter is not ahead of the scan, a route-backed layer is
    never selected while an error is pending. *)
Lemma scan_routes_ineligible rest path stp st layer mr :
  truthy (sc_error st) = true →
  sc_match st ≠ VBool true →
  (∀ j, sc_idx st < j → lt_step j stp = false) →
  sc_match (scan rest path stp st) = VBool true →
  sc_layer (scan rest path stp st) = Some (layer, mr) →
  l_route layer = None.
Proof.
  revert st. induction rest as [|l rest IH]; intros st Herr Hm Hstep; simpl;
    (assert (Hf : strict_eq (sc_match st) (VBool true) = false)
       by (unfold strict_eq; by rewrite bool_decide_eq_false_2));
    rewrite !Hf.
  - done.
  - rewrite Hstep by lia.
    assert (Herr' : truthy (if negb (is_boolean (matchLayer l path))
                            then js_or (sc_error st) (matchLayer l path)
                            else sc_error st) = true).
    { unfold js_or. rewrite Herr. by destruct (negb _). }
    destruct (negb (strict_eq (matchLayer l path) (VBool true))) eqn:Hml.
    { apply IH; simpl; [done| |intros; apply Hstep; lia].
      apply negb_true_iff, bool_decide_eq_false in Hml. done. }
    destruct (negb (bool_decide (is_Some (l_route l)))) eqn:Hroute.
    { apply negb_false_iff, bool_decide_eq_true in Hml.
      rewrite scan_found by done. simpl. intros _ [= <- _].
      apply negb_true_iff, bool_decide_eq_false in Hroute.
      by apply eq_None_not_Some. }
    rewrite Herr'. apply IH; simpl; [done|done|intros; apply Hstep; lia].
Qed.

(** ** The step counter *)

(** C2, evaluated where it fails: a mounted router of three layers ends with
    [next(new Error('boom'))] and leaves [session.step = 3]; the outer scan
    then reaches its route-backed layer with [idx = 2 < 3], takes the
    [continue] of the step guard before the pending-error test, and the route
    is dispatched as a normal request; the error never reaches the terminal
    callback. *)
Theorem route_dispatched_with_pending_error :
  ∃ m s0 s1 s',
    handle origin_pathname outer_with_route (request "/") true = Returned m
    ∧ trace m = [ERequest 0 s0; ERequest 1 s1]
    ∧ mount origin_pathname failing_inner s0 = HNext s' (VErr "boom")
    ∧ step s' = Some 3
    ∧ (l_route <$> r_stack outer_with_route !! 1) = Some (Some "/")
    ∧ deferred m = [VUndef].
Proof.
  do 4 eexists. split_and!.
  - vm_compute; reflexivity.
  - vm_compute; reflexivity.
  - vm_compute; reflexivity.
  - vm_compute; reflexivity.
  - vm_compute; reflexivity.
  - vm_compute; reflexivity.
Qed.

(** C5, evaluated where it fails: the same router is mounted twice.  On the
    second entry [session.step = 2], so layer 0 ([idx = 1]) counts as already
    consumed, yet its handler runs again as on the first entry. *)
Theorem consumed_layer_processed_again :
  ∃ m s1 s2 m1 m2,
    handle origin_pathname outer_twice (request "/") true = Returned m
    ∧ trace m = [ERequest 0 s1; ERequest 1 s2]
    ∧ handle origin_pathname shared_router s1 true = Returned m1
    ∧ handled (trace m1) = [0]
    ∧ step (session m1) = Some 1
    ∧ step s2 = Some 2
    ∧ handle origin_pathname shared_router s2 true = Returned m2
    ∧ handled (trace m2) = [0].
Proof.
  do 5 eexists. split_and!.
  - vm_compute; reflexivity.
  - vm_compute; reflexivity.
  - vm_compute; reflexivity.
  - vm_compute; reflexivity.
  - vm_compute; reflexivity.
  - vm_compute; reflexivity.
  - vm_compute; reflexivity.
  - vm_compute; reflexivity.
Qed.

(** ** Registration *)

Section Partial.
Variable Fn : Type.
Variable newLayer : JsArg Fn -> LayerOptions -> Fn -> Layer.

Local Abbreviation added := (added Fn newLayer).

Lemma use_loop_throws path cs fns (v : value) rest stack :
  use_loop Fn newLayer path cs ((JFun <$> fns) ++ JVal v :: rest) stack
  = (stack ++ added path cs fns, Some "argument handler must be a function").
Proof.
  revert stack. induction fns as [|f fns IH]; intros stack; simpl.
  - by rewrite app_nil_r.
  - rewrite IH. unfold added. simpl. by rewrite <- app_assoc.
Qed.

Lemma flatten_cons (a : JsArg Fn) l : flatten Fn (a :: l) = flatten_arg Fn a ++ flatten Fn l.
Proof. reflexivity. Qed.

Lemma flatten_funs (fns : list Fn) l :
  flatten Fn ((JFun <$> fns) ++ l) = (JFun <$> fns) ++ flatten Fn l.
Proof.
  induction fns as [|f fns IH]; [done|].
  rewrite fmap_cons, <- app_comm_cons, flatten_cons, IH. done.
Qed.

Lemma flatten_nonempty (f : Fn) l : (length (flatten Fn (JFun f :: l)) =? 0) = false.
Proof. by rewrite flatten_cons. Qed.


End Partial.

(** * Further properties *)

(** ** The scan loop *)

Lemma scan_found_first rest path stp st :
  sc_match st ≠ VBool true →
  sc_match (scan rest path stp st) = VBool true →
  ∃ pre layer post,
    rest = pre ++ layer :: post
    ∧ sc_idx (scan rest path stp st) = sc_idx st + S (length pre)
    ∧ sc_layer (scan rest path stp st) = Some (layer, l_match layer path)
    ∧ matchLayer layer path = VBool true
    ∧ ∀ l, l ∈ pre → matchLayer l path = VBool true → is_Some (l_route l).
Proof.
  revert st. induction rest as [|l rest IH]; intros st Hst.
  - simpl. unfold strict_eq. by rewrite bool_decide_eq_false_2.
  - assert (Hhit : ∀ st', sc_idx st' = S (sc_idx st) →
        sc_layer st' = Some (l, l_match l path) →
        sc_match st' = VBool true → matchLayer l path = VBool true →
        ∃ pre layer post,
          l :: rest = pre ++ layer :: post
          ∧ sc_idx (scan rest path stp st') = sc_idx st + S (length pre)
          ∧ sc_layer (scan rest path stp st') = Some (layer, l_match layer path)
          ∧ matchLayer layer path = VBool true
          ∧ ∀ l0, l0 ∈ pre → matchLayer l0 path = VBool true → is_Some (l_route l0)).
    { intros st' Hi Hl Hm Hml. rewrite scan_found by done.
      exists [], l, rest. split_and!; [done|simpl; lia|done|done|].
      intros l0 Hl0. by apply elem_of_nil in Hl0. }
    assert (Hmiss : ∀ st', sc_idx st' = S (sc_idx st) →
        sc_match st' ≠ VBool true →
        (matchLayer l path = VBool true → is_Some (l_route l)) →
        sc_match (scan rest path stp st') = VBool true →
        ∃ pre layer post,
          l :: rest = pre ++ layer :: post
          ∧ sc_idx (scan rest path stp st') = sc_idx st + S (length pre)
          ∧ sc_layer (scan rest path stp st') = Some (layer, l_match layer path)
          ∧ matchLayer layer path = VBool true
          ∧ ∀ l0, l0 ∈ pre → matchLayer l0 path = VBool true → is_Some (l_route l0)).
    { intros st' Hi Hm Hl (pre & layer & post & -> & Hidx & Hlayer & Hml & Hpre)%IH;
        [|done].
      exists (l :: pre), layer, post. split_and!; [done|simpl; lia|done|done|].
      intros l0 [->|Hl0]%elem_of_cons; auto. }
    assert (Hf : strict_eq (sc_match st) (VBool true) = false)
      by (unfold strict_eq; by rewrite bool_decide_eq_false_2).
    simpl. rewrite Hf.
    destruct (lt_step (S (sc_idx st)) stp).
    { destruct (decide (matchLayer l path = VBool true)) as [Hml|Hml].
      - intros _. by apply Hhit.
      - by apply Hmiss. }
    destruct (negb (strict_eq (matchLayer l path) (VBool true))) eqn:Hn.
    { apply negb_true_iff, bool_decide_eq_false in Hn. by apply Hmiss. }
    apply negb_false_iff, bool_decide_eq_true in Hn.
    destruct (negb (bool_decide (is_Some (l_route l)))) eqn:Hr.
    { intros _. by apply Hhit. }
    apply negb_false_iff, bool_decide_eq_true in Hr.
    destruct (truthy _).
    + by apply Hmiss.
    + intros _. by apply Hhit.
Qed.

Lemma scan_found_none rest path stp st :
  sc_match (scan rest path stp st) ≠ VBool true →
  sc_idx (scan rest path stp st) = sc_idx st + length rest
  ∧ ∀ l, l ∈ rest → matchLayer l path = VBool true → is_Some (l_route l).
Proof.
  revert st. induction rest as [|l rest IH]; intros st.
  - simpl. destruct (strict_eq _ _); (split; [lia|]);
      intros l Hl; by apply elem_of_nil in Hl.
  - assert (Hmiss : ∀ st', sc_idx st' = S (sc_idx st) →
        (matchLayer l path = VBool true → sc_match st' ≠ VBool true → is_Some (l_route l)) →
        sc_match (scan rest path stp st') ≠ VBool true →
        sc_idx (scan rest path stp st') = sc_idx st + length (l :: rest)
        ∧ ∀ l0, l0 ∈ l :: rest → matchLayer l0 path = VBool true → is_Some (l_route l0)).
    { intros st' Hi Hl Hm. destruct (IH st' Hm) as [Hidx Hall]. split; [simpl; lia|].
      intros l0 [->|Hl0]%elem_of_cons; [|by auto].
      intros Hml. apply Hl; [done|]. intros Hst'. by rewrite scan_found in Hm. }
    simpl. destruct (strict_eq (sc_match st) (VBool true)) eqn:Hf.
    { apply bool_decide_eq_true in Hf. done. }
    destruct (lt_step (S (sc_idx st)) stp).
    { apply Hmiss; [done|]. simpl. done. }
    destruct (negb (strict_eq (matchLayer l path) (VBool true))) eqn:Hn.
    { apply Hmiss; [done|]. simpl. done. }
    apply negb_false_iff, bool_decide_eq_true in Hn.
    destruct (negb (bool_decide (is_Some (l_route l)))) eqn:Hr.
    { apply Hmiss; [done|]. simpl. done. }
    apply negb_false_iff, bool_decide_eq_true in Hr.
    destruct (truthy _); apply Hmiss; done.
Qed.

(** X1: the scan takes the first eligible layer in stack order.  When it
    stops on a match, the selected layer is the one at the index reached, it
    matches the path, and every matching layer passed over before it is
    route-backed; when it finds none it has examined the whole rest of the
    stack and every matching layer in it is route-backed. *)
Theorem scan_selects_first_match rest path stp i e :
  let sc := scan rest path stp (mkScan i None VUndef e) in
  (sc_match sc = VBool true →
     ∃ pre layer post,
       rest = pre ++ layer :: post
       ∧ sc_idx sc = i + S (length pre)
       ∧ sc_layer sc = Some (layer, l_match layer path)
       ∧ matchLayer layer path = VBool true
       ∧ ∀ l, l ∈ pre → matchLayer l path = VBool true → is_Some (l_route l))
  ∧ (sc_match sc ≠ VBool true →
     sc_idx sc = i + length rest
     ∧ ∀ l, l ∈ rest → matchLayer l path = VBool true → is_Some (l_route l)).
Proof.
  intros sc. subst sc. split.
  - by apply (scan_found_first rest path stp (mkScan i None VUndef e)).
  - apply (scan_found_none rest path stp (mkScan i None VUndef e)).
Qed.

Lemma scan_selects_first_match_witness :
  sc_idx (scan [prefix_layer "/a" [] ∅ None pass pass_error] "/b" None
            (mkScan 0 None VUndef VUndef)) = 1.
Proof.
  destruct (scan_selects_first_match [prefix_layer "/a" [] ∅ None pass pass_error]
              "/b" None 0 VUndef) as [_ Hnone].
  destruct Hnone as [Hidx _]; [vm_compute; discriminate|].
  exact Hidx.
Defined.

Lemma scan_error_from rest path stp st :
  let sc := scan rest path stp st in
  (truthy (sc_error st) = true → sc_error sc = sc_error st)
  ∧ (sc_error sc = sc_error st
     ∨ ∃ l, l ∈ rest ∧ is_boolean (matchLayer l path) = false
            ∧ sc_error sc = matchLayer l path).
Proof.
  revert st. induction rest as [|l rest IH]; intros st sc; subst sc; simpl.
  - destruct (strict_eq _ _); auto.
  - destruct (strict_eq (sc_match st) _); [auto|].
    assert (Hkeep : ∀ st', sc_error st' = sc_error st →
      (truthy (sc_error st) = true → sc_error (scan rest path stp st') = sc_error st)
      ∧ (sc_error (scan rest path stp st') = sc_error st
         ∨ ∃ l0, l0 ∈ l :: rest ∧ is_boolean (matchLayer l0 path) = false
                 ∧ sc_error (scan rest path stp st') = matchLayer l0 path)).
    { intros st' He. destruct (IH st') as [H1 H2]. rewrite He in H1, H2. split; [done|].
      destruct H2 as [?|(l0 & ? & ? & ?)]; [by left|right].
      exists l0. split_and!; [apply elem_of_cons; by right|done..]. }
    assert (Hheld : ∀ st',
      sc_error st' = (if negb (is_boolean (matchLayer l path))
                      then js_or (sc_error st) (matchLayer l path) else sc_error st) →
      (truthy (sc_error st) = true → sc_error (scan rest path stp st') = sc_error st)
      ∧ (sc_error (scan rest path stp st') = sc_error st
         ∨ ∃ l0, l0 ∈ l :: rest ∧ is_boolean (matchLayer l0 path) = false
                 ∧ sc_error (scan rest path stp st') = matchLayer l0 path)).
    { intros st' He. destruct (is_boolean (matchLayer l path)) eqn:Hb; simpl in He.
      { by apply Hkeep. }
      unfold js_or in He. destruct (truthy (sc_error st)) eqn:Ht.
      { by apply Hkeep. }
      destruct (IH st') as [H1 H2]. rewrite He in H1, H2. split; [done|].
      destruct H2 as [?|(l0 & ? & ? & ?)]; right.
      - exists l. split_and!; [apply elem_of_cons; by left|done..].
      - exists l0. split_and!; [apply elem_of_cons; by right|done..]. }
    destruct (lt_step _ _); [by apply Hkeep|].
    repeat case_match; by apply Hheld.
Qed.

(** X2: the scan never clears or replaces a pending error, and the only
    error it can pick up is the non-boolean result of matching one of the
    layers it examined. *)
Theorem scan_holds_error rest path stp i e :
  let sc := scan rest path stp (mkScan i None VUndef e) in
  (truthy e = true → sc_error sc = e)
  ∧ (sc_error sc = e
     ∨ ∃ l, l ∈ rest ∧ is_boolean (matchLayer l path) = false
            ∧ sc_error sc = matchLayer l path).
Proof. apply (scan_error_from rest path stp (mkScan i None VUndef e)). Qed.

Lemma scan_holds_error_witness :
  sc_error (scan [any_layer None pass] "/" None (mkScan 0 None VUndef (VErr "boom")))
  = VErr "boom".
Proof.
  destruct (scan_holds_error [any_layer None pass] "/" None 0 (VErr "boom")) as [Hkeep _].
  apply Hkeep. reflexivity.
Defined.

(** X3: where the context's step counter is not ahead of the scan (it is
    unset, or at most the index the scan starts from), a scan that starts
    with a pending error never selects a route-backed layer. *)
Theorem scan_pending_error_skips_routes rest path stp i e layer mr :
  truthy e = true →
  lt_step (S i) stp = false →
  let sc := scan rest path stp (mkScan i None VUndef e) in
  sc_match sc = VBool true →
  sc_layer sc = Some (layer, mr) →
  l_route layer = None.
Proof.
  intros He Hstep sc. subst sc.
  apply scan_routes_ineligible; simpl; [done|done|].
  intros j Hj. destruct stp as [k|]; [|done]. simpl in *.
  apply Nat.ltb_ge in Hstep. apply Nat.ltb_ge. lia.
Qed.

Lemma scan_pending_error_skips_routes_witness :
  l_route (any_layer None pass) = None.
Proof.
  apply (scan_pending_error_skips_routes
           [any_layer (Some "/") pass; any_layer None pass] "/" None 0 (VErr "boom")
           (any_layer None pass) (l_match (any_layer None pass) "/"));
    reflexivity.
Defined.

(** ** Parameter merging *)

Lemma pretty_N_go_digits (x : N) (s : string) :
  all_digits s = true → all_digits (pretty_N_go x s) = true.
Proof.
  revert s. induction (N.lt_wf_0 x) as [x _ IH]; intros s Hs.
  assert (x = 0 ∨ 0 < x)%N as [->|Hx] by lia.
  - by rewrite pretty_N_go_0.
  - rewrite pretty_N_go_step by done. apply IH; [by apply N.div_lt|].
    simpl. rewrite Hs, andb_true_r.
    unfold pretty_N_char. by repeat case_match.
Qed.

Lemma pretty_all_digits (j : nat) : all_digits (pretty j) = true.
Proof.
  unfold pretty, pretty_nat, pretty, pretty_N.
  case_decide; [done|]. by apply pretty_N_go_digits.
Qed.

Lemma not_digits_not_index (k : string) (j : nat) : all_digits k = false → k ≠ pretty j.
Proof. intros Hk ->. by rewrite pretty_all_digits in Hk. Qed.

(** X4: the numeric gap of an object, the result of [while (i in m) i++], is
    the smallest index that is not a property of the object. *)
Theorem numeric_gap_least (m : Params) (g : nat) :
  numeric_gap m = g ↔
  m !! pretty g = None ∧ ∀ j, j < g → is_Some (m !! pretty j).
Proof.
  destruct (numeric_gap_spec m) as [Hall Hend]. split.
  - intros <-. split; [by apply has_false|]. intros j Hj. by apply has_true, Hall.
  - intros [Hg Hbelow].
    destruct (decide (numeric_gap m < g)) as [Hlt|Hge].
    + apply Hbelow in Hlt. apply has_false in Hend. rewrite Hend in Hlt. by destruct Hlt.
    + destruct (decide (g < numeric_gap m)) as [Hlt|]; [|lia].
      apply Hall, has_true in Hlt. rewrite Hg in Hlt. by destruct Hlt.
Qed.

(** X5: whatever the numeric entries are, a key that is not a decimal
    numeral is merged by key union, the layer's value overriding the
    parent's. *)
Theorem mergeParams_named_keys (params parent : Params) (k : string) :
  all_digits k = false →
  mergeParams params (Some parent) !! k
  = match params !! k with
    | Some v => Some v
    | None => parent !! k
    end.
Proof.
  intros Hk. unfold mergeParams, mixin. rewrite (right_id_L ∅ (∪)).
  assert (Hunion : ∀ q : Params, q !! k = params !! k →
            (q ∪ parent) !! k = match params !! k with
                                | Some v => Some v
                                | None => parent !! k
                                end).
  { intros q Hq. rewrite lookup_union, Hq.
    destruct (params !! k), (parent !! k); done. }
  destruct (_ || _); apply Hunion; [done|].
  apply offset_numeric_other; intros; by apply not_digits_not_index.
Qed.

Lemma mergeParams_named_keys_witness :
  mergeParams (<["id" := VStr "7"]> {[pretty 0 := VStr "b"]})
              (Some (<["id" := VStr "1"]> {[pretty 0 := VStr "a"]})) !! "id"
  = Some (VStr "7").
Proof. rewrite mergeParams_named_keys; reflexivity. Defined.

(** X6: when both objects have the property [0], the layer's consecutive
    numeric entries [0 .. n-1] are found at [o .. o+n-1] in the merged
    object, [n] and [o] being the numeric gaps of the layer's and the
    parent's object; the parent's entries at indices below both gaps are
    kept. *)
Theorem mergeParams_shifts_layer (params parent : Params) :
  is_Some (params !! pretty 0) → is_Some (parent !! pretty 0) →
  let merged := mergeParams params (Some parent) in
  let n := numeric_gap params in
  let o := numeric_gap parent in
  (∀ i, i < n → merged !! pretty (i + o) = params !! pretty i)
  ∧ (∀ j, j < n → j < o → merged !! pretty j = parent !! pretty j).
Proof.
  intros Hp Hq merged n o. subst merged n o. unfold mergeParams, mixin.
  apply has_true in Hp, Hq. rewrite Hp, Hq. simpl.
  rewrite (right_id_L ∅ (∪)).
  destruct (numeric_gap_spec params) as [Hall _]. split.
  - intros i Hi. destruct (proj1 (has_true _ _) (Hall i Hi)) as [v Hv].
    rewrite Hv. apply lookup_union_Some_l.
    rewrite offset_numeric_moved by exact Hi. by rewrite (get_Some _ _ _ Hv).
  - intros j Hjn Hjo. apply lookup_union_r. by apply offset_numeric_deleted.
Qed.

Lemma mergeParams_shifts_layer_witness :
  mergeParams {[pretty 0 := VStr "b"]} (Some {[pretty 0 := VStr "a"]}) !! pretty (0 + 1)
  = Some (VStr "b").
Proof.
  destruct (mergeParams_shifts_layer {[pretty 0 := VStr "b"]} {[pretty 0 := VStr "a"]})
    as [Hlayer _]; [by eexists | by eexists |].
  etrans; [apply (Hlayer 0); vm_compute; lia | reflexivity].
Defined.

(** ** Restoring the url *)

(** X7: restoring is idempotent: once [next] has removed the added slash and
    put the removed prefix back, doing so again changes nothing. *)
Theorem untrim_idempotent (entry : Session) (m : Machine) :
  untrim entry (untrim entry m) = untrim entry m
  ∧ slashAdded (untrim entry m) = false
  ∧ removed (untrim entry m) = "".
Proof.
  assert (Hclean : slashAdded (untrim entry m) = false ∧ removed (untrim entry m) = "").
  { unfold untrim.
    destruct (slashAdded m) eqn:Hs; simpl;
      destruct (removed m) eqn:Hr; simpl; by rewrite ?Hs, ?Hr. }
  destruct Hclean as [Hs Hr]. split; [|done].
  unfold untrim at 1. by rewrite Hs, Hr.
Qed.

(** ** The parameter pipeline *)



(** X9: one run of the callbacks of a name invokes each registered callback
    at most once, all with the raw value: the trace grows by [k] callback
    events for some [k] that is at most the number of callbacks, and the
    cached record keeps the raw value as its [match]. *)
Theorem paramCallback_runs_each_once fns name paramVal pc p s tr err :
  let '(pc', _, tr', _) := paramCallback fns name paramVal pc p s tr err in
  pc_match pc' = pc_match pc
  ∧ ∃ k, k ≤ length fns ∧ tr' = tr ++ replicate k (EParamFn name paramVal).
Proof.
  revert pc p tr err. induction fns as [|fn fns IH]; intros pc p tr err; simpl.
  - destruct (truthy err); (split; [done|]); exists 0; by rewrite app_nil_r.
  - destruct (truthy err).
    { split; [done|]. exists 0. split; [lia|]. by rewrite app_nil_r. }
    assert (Hnext : ∀ upd e,
      let '(pc', _, tr', _) :=
        paramCallback fns name paramVal
          (mkCalled (pc_error pc) (pc_match pc) (get p name)) (apply_upd name upd p) s
          (tr ++ [EParamFn name paramVal]) e in
      pc_match pc' = pc_match pc
      ∧ ∃ k, k ≤ S (length fns) ∧ tr' = tr ++ replicate k (EParamFn name paramVal)).
    { intros upd e.
      specialize (IH (mkCalled (pc_error pc) (pc_match pc) (get p name))
                     (apply_upd name upd p) (tr ++ [EParamFn name paramVal]) e).
      destruct (paramCallback _ _ _ _ _ _ _ _) as [[[pc' p'] tr'] k'].
      destruct IH as (Hm & k & Hk & ->). split; [done|].
      exists (S k). split; [lia|]. by rewrite <- app_assoc. }
    destruct (fn _ _ _) as [upd e|upd e|]; [apply Hnext..|].
    split; [done|]. exists 1. split; [lia|done].
Qed.

(** X10: when every callback of the chain continues without an error, all of
    them run, in one pass, and the run ends with [param()] called without an
    error; a callback that passes a truthy error ends the run at once, and
    the error is cached and passed to [param]. *)
Theorem paramCallback_chain fns name paramVal pc p s tr :
  ((∀ fn, fn ∈ fns → ∀ s' v n, ∃ upd e, fn s' v n = PNext upd e ∧ truthy e = false) →
   let '(_, _, tr', k) := paramCallback fns name paramVal pc p s tr VUndef in
   tr' = tr ++ replicate (length fns) (EParamFn name paramVal) ∧ k = Some VUndef)
  ∧ (∀ fn upd e, fn (set_params (Some p) s) paramVal name = PNext upd e →
       truthy e = true →
       let '(pc', _, tr', k) := paramCallback (fn :: fns) name paramVal pc p s tr VUndef in
       tr' = tr ++ [EParamFn name paramVal] ∧ k = Some e ∧ pc_error pc' = e).
Proof.
  split.
  - assert (Hgen : ∀ err, truthy err = false →
      (∀ fn, fn ∈ fns → ∀ s' v n, ∃ upd e, fn s' v n = PNext upd e ∧ truthy e = false) →
      let '(_, _, tr', k) := paramCallback fns name paramVal pc p s tr err in
      tr' = tr ++ replicate (length fns) (EParamFn name paramVal) ∧ k = Some VUndef).
    { revert pc p tr. induction fns as [|fn fns IH]; intros pc p tr err Herr Hfns; simpl;
        rewrite Herr.
      - by rewrite app_nil_r.
      - destruct (Hfns fn ltac:(by apply elem_of_cons; left) (set_params (Some p) s)
                    paramVal name) as (upd & e & -> & He).
        specialize (IH (mkCalled (pc_error pc) (pc_match pc) (get p name))
                       (apply_upd name upd p) (tr ++ [EParamFn name paramVal]) e He).
        destruct (paramCallback _ _ _ _ _ _ _ _) as [[[pc' p'] tr'] k'].
        destruct IH as (-> & ->).
        { intros fn' Hfn'. apply Hfns. by apply elem_of_cons; right. }
        by rewrite <- app_assoc. }
    by apply Hgen.
  - intros fn upd e Hfn He. simpl. rewrite Hfn.
    destruct fns as [|fn' fns']; simpl; by rewrite He.
Qed.

Lemma paramCallback_chain_witness :
  (paramCallback [load_id; load_id] "id" (VStr "1") (mkCalled VNull (VStr "1") (VStr "1"))
                 {["id" := VStr "1"]} (request "/1") [] VUndef).1.2
  = [EParamFn "id" (VStr "1"); EParamFn "id" (VStr "1")].
Proof.
  destruct (paramCallback_chain [load_id; load_id] "id" (VStr "1")
              (mkCalled VNull (VStr "1") (VStr "1")) {["id" := VStr "1"]} (request "/1") [])
    as [Hall _].
  assert (Hcont : ∀ fn : ParamFn, fn ∈ [load_id; load_id] →
            ∀ s' v n, ∃ upd e, fn s' v n = PNext upd e ∧ truthy e = false).
  { intros fn Hfn s' v n.
    assert (fn = load_id) as ->.
    { apply elem_of_cons in Hfn as [->|Hfn]; [done|].
      by apply list_elem_of_singleton in Hfn. }
    exists None, VUndef. split; reflexivity. }
  specialize (Hall Hcont).
  destruct (paramCallback _ _ _ _ _ _ _ _) as [[[pc' p'] tr'] k'].
  destruct Hall as [-> _]. reflexivity.
Defined.

(** ** Traces of a dispatch *)

Lemma process_params_events rt layer called p s tr :
  ∃ evs, result_trace (process_params rt layer called p s tr) = tr ++ evs
         ∧ Forall (fun e => is_paramfn e = true) evs.
Proof.
  unfold process_params. destruct (l_keys layer); [|apply param_events].
  exists []. by rewrite app_nil_r.
Qed.

Lemma handled_app tr1 tr2 : handled (tr1 ++ tr2) = handled tr1 ++ handled tr2.
Proof. apply omap_app. Qed.

Lemma paramfn_quiet entry evs :
  Forall (fun e => is_paramfn e = true) evs →
  handled evs = [] ∧ Forall (event_ok entry) evs.
Proof.
  induction 1 as [|e evs He _ [IH1 IH2]]; [done|].
  destruct e; try discriminate He. split; [done|]. by constructor.
Qed.

Section Traces.
Variable pathname : string -> option string.
Variable r : Router.
Variable entry : Session.

(** What one step of [next] adds to the trace. *)
Lemma next_body_events m err :
  let m' := machine_of (next_body pathname r entry m err) in
  idx m ≤ idx m'
  ∧ ∃ evs, trace m' = trace m ++ evs
           ∧ Forall (event_ok entry) evs
           ∧ (handled evs = [] ∨ (idx m < idx m' ∧ handled evs = [pred (idx m')])).
Proof.
  assert (Hdone : ∀ x e, idx x = idx x → ∃ evs,
            trace (done entry x e) = trace x ++ evs
            ∧ Forall (event_ok entry) evs ∧ handled evs = []).
  { intros x e _. eexists. split; [reflexivity|]. split; [|done].
    by repeat constructor. }
  assert (Hinvoke : ∀ layer (oe : option value) x,
            match oe with Some e => truthy e = true | None => True end →
            let x' := machine_of (invoke layer oe x) in
            idx x' = idx x
            ∧ ∃ ev, trace x' = trace x ++ [ev] ∧ event_ok entry ev
                    ∧ ∀ tr, handled (tr ++ [ev]) = handled tr ++ [pred (idx x)]).
  { intros layer oe x Hoe. unfold invoke.
    destruct oe as [e|]; simpl;
      [destruct (handle_error layer e (session x))
      |destruct (handle_request layer (session x))];
      simpl; (split; [done|]); eexists; (split; [reflexivity|]);
      (split; [done|]); intros tr; by rewrite handled_app. }
  unfold next_body. cbv zeta.
  set (layerError := pending err).
  destruct (strict_eq layerError _).
  { simpl. rewrite untrim_idx, untrim_trace. split; [done|].
    exists []. rewrite app_nil_r. by split_and!; [|constructor|left]. }
  destruct (_ <=? _) eqn:Hlen.
  { simpl. rewrite untrim_idx, untrim_trace. split; [done|].
    exists []. rewrite app_nil_r. by split_and!; [|constructor|left]. }
  apply Nat.leb_gt in Hlen. rewrite untrim_idx in Hlen.
  destruct (getPathname _ _) as [path|].
  2:{ simpl. rewrite untrim_idx, untrim_trace. split; [done|].
      eexists. split; [reflexivity|]. split; [by repeat constructor|by left]. }
  rewrite !untrim_idx.
  pose proof (scan_from_idx (r_stack r) (idx m) path (step (session (untrim entry m)))
                layerError Hlen) as Hidx.
  simpl in Hidx.
  destruct (sc_layer _) as [[layer mr]|].
  2:{ simpl. rewrite untrim_trace. split; [lia|].
      eexists. split; [reflexivity|]. split; [by repeat constructor|by left]. }
  destruct (negb _).
  { simpl. rewrite untrim_trace. split; [lia|].
    eexists. split; [reflexivity|]. split; [by repeat constructor|by left]. }
  destruct (l_route layer) as [rt|] eqn:Hroute;
    (match goal with |- context [process_params ?a ?b ?c ?d ?e ?f] =>
      destruct (process_params_events a b c d e f) as (evs & Hevs & Hall);
      destruct (process_params a b c d e f) as [called p' tr perr|called p' tr] end;
     simpl in Hevs; rewrite untrim_trace in Hevs; subst tr;
     destruct (paramfn_quiet entry evs Hall) as [Hq1 Hq2]).
  - destruct (truthy perr).
    { simpl. split; [lia|]. exists evs. by split_and!; [| |left]. }
    match goal with |- context [invoke ?l ?oe ?x] =>
      destruct (Hinvoke l oe x I) as (Hi & ev & Ht & Hev & Hh) end.
    simpl in Hi, Ht, Hh. simpl. rewrite Hi, Ht. split; [lia|].
    exists (evs ++ [ev]). split; [by rewrite app_assoc|].
    split; [apply Forall_app; split; [done|by constructor]|].
    right. split; [lia|]. by rewrite Hh, Hq1.
  - simpl. split; [lia|]. exists evs. by split_and!; [| |left].
  - destruct (truthy perr).
    { simpl. split; [lia|]. exists evs. by split_and!; [| |left]. }
    unfold trim_prefix.
    destruct (_ && _).
    { simpl. split; [lia|]. exists evs. by split_and!; [| |left]. }
    destruct (truthy (sc_error _)) eqn:Herr;
      (match goal with |- context [invoke ?l ?oe ?x] =>
         destruct (Hinvoke l oe x) as (Hi & ev & Ht & Hev & Hh); [done|] end;
       revert Hi Ht Hh; destruct (negb (String.length _ =? 0));
       rewrite ?trim_idx, ?trim_trace; simpl; intros Hi Ht Hh;
       rewrite Hi, Ht; (split; [lia|]);
       exists (evs ++ [ev]); (split; [by rewrite app_assoc|]);
       (split; [apply Forall_app; split; [done|by constructor]|]);
       right; (split; [lia|]); by rewrite Hh, Hq1).
  - simpl. split; [lia|]. exists evs. by split_and!; [| |left].
Qed.


Lemma increasing_snoc (l : list nat) (k i : nat) :
  increasing l → Forall (fun a => a < k) l → k ≤ i → increasing (l ++ [i]).
Proof.
  intros Hinc Hall Hk x y a b Hx Hy Hxy.
  apply lookup_lt_Some in Hy as Hylen. rewrite length_app in Hylen. simpl in Hylen.
  assert (x < length l) as Hxl by lia.
  rewrite lookup_app_l in Hx by done.
  destruct (decide (y < length l)) as [Hyl|Hyl].
  - rewrite lookup_app_l in Hy by done. by eapply Hinc.
  - rewrite lookup_app_r in Hy by lia.
    assert (y - length l = 0) as Hz by lia. rewrite Hz in Hy. simpl in Hy.
    injection Hy as <-.
    assert (a < k); [|lia].
    rewrite Forall_forall in Hall. apply Hall. by eapply list_elem_of_lookup_2.
Qed.

Lemma next_body_keeps_order m err :
  in_order (idx m) (trace m) ∧ Forall (event_ok entry) (trace m) →
  let m' := machine_of (next_body pathname r entry m err) in
  in_order (idx m') (trace m') ∧ Forall (event_ok entry) (trace m').
Proof.
  intros [[Hinc Hbelow] Hok] m'. subst m'.
  destruct (next_body_events m err) as (Hidx & evs & -> & Hevs & Hh).
  split; [|by apply Forall_app].
  unfold in_order. rewrite handled_app.
  destruct Hh as [->|[Hlt ->]].
  - rewrite app_nil_r. split; [done|].
    eapply Forall_impl; [exact Hbelow|]. simpl. intros; lia.
  - split.
    + eapply increasing_snoc; [done|exact Hbelow|lia].
    + apply Forall_app. split.
      * eapply Forall_impl; [exact Hbelow|]. simpl. intros; lia.
      * repeat constructor. lia.
Qed.

Lemma next_keeps_order fuel m err m' :
  in_order (idx m) (trace m) ∧ Forall (event_ok entry) (trace m) →
  next pathname fuel r entry m err = Some m' →
  in_order (idx m') (trace m') ∧ Forall (event_ok entry) (trace m').
Proof.
  revert m err. induction fuel as [|fuel IH]; intros m err HP; [done|].
  simpl. pose proof (next_body_keeps_order m err HP) as Hstep.
  destruct (next_body pathname r entry m err) as [m1 err1|m1]; simpl in Hstep.
  - by apply IH.
  - by intros [= <-].
Qed.

Lemma run_deferred_ok m :
  Forall (event_ok entry) (trace m) →
  Forall (event_ok entry) (trace (run_deferred entry m)).
Proof.
  unfold run_deferred.
  assert (Hfold : ∀ errs x, Forall (event_ok entry) (trace x) →
            Forall (event_ok entry) (trace (fold_left (done entry) errs x))).
  { induction errs as [|e errs IH]; intros x Hx; [done|].
    simpl. apply IH. unfold done, log. simpl.
    apply Forall_app. split; [done|]. by repeat constructor. }
  intros Hm. by apply Hfold.
Qed.

End Traces.

Lemma handle_trace_invariant pathname r s :
  ∃ m, handle pathname r s true = Returned m
       ∧ in_order (idx m) (trace m)
       ∧ Forall (event_ok s) (trace (run_deferred s m)).
Proof.
  destruct (handle_returns pathname r s) as [m Hm]. exists m. split; [done|].
  unfold handle in Hm. lazy beta iota zeta delta [negb] in Hm.
  destruct (next _ _ _ _ _ _) as [m'|] eqn:Hnext; [|done].
  injection Hm as ->.
  apply next_keeps_order in Hnext as [Hord Hok].
  - split; [done|]. by apply run_deferred_ok.
  - simpl. split; [|constructor]. split; [|constructor].
    intros i j a b Hi. done.
Qed.

(** X11: in one call of [handle] the handlers of the layers run in stack
    order, each layer at most once: the stack indices of the handler events
    are strictly increasing. *)
Theorem handlers_run_in_stack_order pathname r s :
  ∃ m, handle pathname r s true = Returned m
       ∧ ∀ i j a b,
           handled (trace m) !! i = Some a → handled (trace m) !! j = Some b →
           i < j → a < b.
Proof.
  destruct (handle_trace_invariant pathname r s) as (m & Hm & [Hinc _] & _).
  by exists m.
Qed.

(** X12: whenever the terminal callback runs, directly or from the
    scheduler, [session.baseUrl] and [session.params] have been put back to
    what they were when [handle] was entered. *)
Theorem callback_sees_restored_context pathname r s :
  ∃ m, handle pathname r s true = Returned m
       ∧ ∀ err s', ECallback err s' ∈ trace (run_deferred s m) →
                   baseUrl s' = baseUrl s ∧ params s' = params s.
Proof.
  destruct (handle_trace_invariant pathname r s) as (m & Hm & _ & Hok).
  exists m. split; [done|]. intros err s' Hin.
  rewrite Forall_forall in Hok. by apply (Hok _ Hin).
Qed.

(** X13: a layer's error handler is only ever invoked with a truthy error. *)
Theorem error_handlers_get_errors pathname r s :
  ∃ m, handle pathname r s true = Returned m
       ∧ ∀ i err s', EError i err s' ∈ trace m → truthy err = true.
Proof.
  destruct (handle_trace_invariant pathname r s) as (m & Hm & _ & Hok).
  exists m. split; [done|]. intros i err s' Hin.
  rewrite Forall_forall in Hok. apply (Hok (EError i err s')).
  unfold run_deferred.
  assert (Hfold : ∀ errs x, EError i err s' ∈ trace x →
            EError i err s' ∈ trace (fold_left (done s) errs x)).
  { induction errs as [|e errs IH]; intros x Hx; [done|].
    simpl. apply IH. unfold done, log. simpl. apply elem_of_app. by left. }
  by apply Hfold.
Qed.

(** X14: a call of [next] that leads to another call has moved the scan index
    forward by at least one layer and not beyond the end of the stack; so
    [next] returns whenever its fuel exceeds the number of layers left. *)
Theorem next_advances pathname r entry m err :
  (∀ m' err', next_body pathname r entry m err = Again m' err' →
              idx m < idx m' ≤ length (r_stack r))
  ∧ (∀ fuel, length (r_stack r) - idx m < fuel →
             ∃ m', next pathname fuel r entry m err = Some m').
Proof.
  split.
  - intros m' err' Hstep. by apply next_body_again in Hstep as [? _].
  - intros fuel Hfuel. by apply next_total.
Qed.

Lemma next_advances_witness :
  ∃ m', next origin_pathname 2 foo_router (request "/foo")
             (mkMachine 0 "" false ∅ (request "/foo") [] []) VUndef = Some m'.
Proof.
  destruct (next_advances origin_pathname foo_router (request "/foo")
              (mkMachine 0 "" false ∅ (request "/foo") [] []) VUndef) as [_ Hfuel].
  apply Hfuel. simpl. lia.
Defined.

(** ** Registration *)

(** X15: [param(name, fn)] throws, leaving the router as it was, unless
    [name] is a non-empty string, [fn] a function, and [name] either has
    callbacks registered already or is not a name inherited from
    [Object.prototype]; then [fn] is appended after the callbacks already
    registered for [name], the callbacks of the other names and the stack
    being untouched.  For an inherited name without callbacks of its own the
    call fails on [params.push]. *)
Theorem Router_param_registers (inherited : string → bool) (r : Router)
    (name fn : JsArg ParamFn) :
  let accepted :=
    ∃ n f, name = JVal (VStr n) ∧ n ≠ "" ∧ fn = JFun f
           ∧ (is_Some (r_params r !! n) ∨ inherited n = false) in
  match Router_param inherited r name fn with
  | (r', None) =>
      ∃ n f, name = JVal (VStr n) ∧ n ≠ "" ∧ fn = JFun f
             ∧ (is_Some (r_params r !! n) ∨ inherited n = false)
             ∧ r_params r' !! n = Some (default [] (r_params r !! n) ++ [f])
             ∧ (∀ n', n' ≠ n → r_params r' !! n' = r_params r !! n')
             ∧ r_stack r' = r_stack r
  | (r', Some thrown) =>
      r' = r ∧ ¬ accepted
      ∧ (thrown = PushNotAFunction ↔
         ∃ n f, name = JVal (VStr n) ∧ n ≠ "" ∧ fn = JFun f
                ∧ r_params r !! n = None ∧ inherited n = true)
  end.
Proof.
  intros accepted. subst accepted.
  assert (Hthrow : ∀ msg,
    (∀ n f, name = JVal (VStr n) → n ≠ "" → fn = JFun f → False) →
    r = r
    ∧ ¬ (∃ n f, name = JVal (VStr n) ∧ n ≠ "" ∧ fn = JFun f
                ∧ (is_Some (r_params r !! n) ∨ inherited n = false))
    ∧ (ArgumentError msg = PushNotAFunction ↔
       ∃ n f, name = JVal (VStr n) ∧ n ≠ "" ∧ fn = JFun f
              ∧ r_params r !! n = None ∧ inherited n = true)).
  { intros msg Hno. split_and!; [done| |].
    - intros (n & f & ? & ? & ? & _). by eapply Hno.
    - split; [done|]. intros (n & f & ? & ? & ? & _). exfalso. by eapply Hno. }
  unfold Router_param.
  destruct (negb (arg_truthy name)) eqn:Hname.
  { apply Hthrow. intros n f -> Hn _. simpl in Hname.
    by rewrite bool_decide_eq_false_2 in Hname. }
  destruct name as [g|items|v]; [by apply Hthrow..|].
  destruct v as [| |b|z|n|msg]; try by apply Hthrow.
  simpl in Hname. apply negb_false_iff, negb_true_iff, bool_decide_eq_false in Hname.
  destruct (negb (arg_truthy fn)) eqn:Hfn.
  { apply Hthrow. intros n' f _ _ ->. done. }
  destruct fn as [f|items|v]; [|by apply Hthrow..].
  destruct (r_params r !! n) as [params|] eqn:Hreg.
  - exists n, f. split_and!; [done|done|done| | | |done].
    + left. by exists params.
    + simpl. rewrite Hreg. by rewrite lookup_insert_eq.
    + intros n' Hn'. simpl. by rewrite lookup_insert_ne.
  - destruct (inherited n) eqn:Hinh.
    + split_and!; [done| |].
      * intros (n0 & f0 & [= <-] & _ & _ & [[? Hs]|Hi]); congruence.
      * split; [|done]. intros _. exists n, f. by split_and!.
    + exists n, f. split_and!; [done|done|done| | | |done].
      * by right.
      * simpl. rewrite Hreg. by rewrite lookup_insert_eq.
      * intros n' Hn'. simpl. by rewrite lookup_insert_ne.
Qed.

(** [router.param('constructor', fn)] on a new router fails on [params.push]. *)
Example param_constructor_throws (f : ParamFn) :
  Router_param (fun n => bool_decide (n = "constructor")) (router_of false ∅ [])
    (JVal (VStr "constructor")) (JFun f)
  = (router_of false ∅ [], Some PushNotAFunction).
Proof. reflexivity. Qed.

Section Appending.
Variable Fn : Type.
Variable newLayer : JsArg Fn -> LayerOptions -> Fn -> Layer.

Lemma use_loop_appends path cs callbacks stack :
  ∃ new, (use_loop Fn newLayer path cs callbacks stack).1 = stack ++ new
         ∧ Forall plain new
         ∧ length new ≤ length callbacks
         ∧ ((use_loop Fn newLayer path cs callbacks stack).2 = None →
            length new = length callbacks).
Proof.
  revert stack. induction callbacks as [|a callbacks IH]; intros stack; simpl.
  - exists []. by rewrite app_nil_r.
  - destruct a as [f|items|v]; simpl.
    + destruct (IH (stack ++ [clear_route (newLayer path (mkOptions cs false false) f)]))
        as (new & -> & Hplain & Hlen & Hall).
      exists (clear_route (newLayer path (mkOptions cs false false) f) :: new).
      split_and!.
      * by rewrite <- app_assoc.
      * by constructor.
      * simpl. lia.
      * intros Hnone. simpl. by rewrite Hall.
    + exists []. rewrite app_nil_r. split_and!; [done|constructor|simpl; lia|done].
    + exists []. rewrite app_nil_r. split_and!; [done|constructor|simpl; lia|done].
Qed.

Lemma flatten_drop_length (offset : nat) (arguments : list (JsArg Fn)) :
  offset ≤ 1 →
  length (flatten Fn (drop offset arguments)) ≤ length (flatten Fn arguments).
Proof.
  intros Hoff. destruct offset as [|[|?]]; [done| |lia].
  destruct arguments as [|a rest]; [done|].
  change (drop 1 (a :: rest)) with rest.
  rewrite flatten_cons, length_app. lia.
Qed.

(** X16: [use] only appends to the stack: the layers present before the call
    stay in place, every layer added is a plain (non-route) layer, there are
    no more of them than flattened arguments, and the parameter callbacks are
    untouched; a call that returns has added at least one layer, and a call
    that throws for a missing handler has added none. *)
Theorem use_appends_plain_layers (r : Router) (arguments : list (JsArg Fn)) :
  ∃ new,
    r_stack (use Fn newLayer r arguments).1 = r_stack r ++ new
    ∧ Forall plain new
    ∧ r_params (use Fn newLayer r arguments).1 = r_params r
    ∧ length new ≤ length (flatten Fn arguments)
    ∧ ((use Fn newLayer r arguments).2 = None → 0 < length new)
    ∧ ((use Fn newLayer r arguments).2 = Some "argument handler is required" →
       new = []).
Proof.
  unfold use.
  set (handler := default (JVal VUndef) (head arguments)).
  assert (Hoff : ∃ offset path, offset ≤ 1 ∧
    (if negb (is_function Fn handler)
     then if negb (is_function Fn (first_leaf Fn handler))
          then (1, handler) else (0, JVal (VStr "/"))
     else (0, JVal (VStr "/"))) = (offset, path)).
  { repeat case_match; eexists _, _; (split; [|reflexivity]); lia. }
  destruct Hoff as (offset & path & Hoff & ->).
  pose proof (flatten_drop_length offset arguments Hoff) as Hdrop.
  set (callbacks := flatten Fn (drop offset arguments)) in *.
  destruct (length callbacks =? 0) eqn:Hlen; simpl.
  - exists []. rewrite app_nil_r. split_and!; [done|done|done|simpl; lia| |done].
    intros [=].
  - apply Nat.eqb_neq in Hlen.
    destruct (use_loop_appends path (r_caseSensitive r) callbacks (r_stack r))
      as (new & Hnew & Hplain & Hle & Hall).
    destruct (use_loop _ _ _ _ _ _) as [stack thrown] eqn:Hloop. simpl in *.
    exists new. split_and!; [done|done|done|lia| |].
    + intros ->. rewrite Hall by done. lia.
    + intros ->.
      assert (Hmsg : ∀ cbs st, (use_loop Fn newLayer path (r_caseSensitive r) cbs st).2
                    ≠ Some "argument handler is required").
      { induction cbs as [|a cbs IHc]; intros st; simpl; [done|].
        destruct a; simpl; [apply IHc|done..]. }
      exfalso. apply (Hmsg callbacks (r_stack r)). by rewrite Hloop.
Qed.

Lemma first_leaf_flatten (a : JsArg Fn) :
  is_function Fn (first_leaf Fn a) = true → ∃ f tl, flatten_arg Fn a = JFun f :: tl.
Proof.
  revert a. fix IH 1. intros [f|items|v]; simpl.
  - eauto.
  - destruct items as [|x items]; [discriminate|].
    intros Hx. destruct (IH x Hx) as (f & tl & ->). simpl. eauto.
  - discriminate.
Qed.

(** X17: the first argument of [use] is told apart by its first leaf.  When
    it is a function, or an array whose first leaf is a function, it is itself
    registered, with the rest, under the default path ['/']; otherwise it is
    taken as the path and only the rest is registered. *)
Theorem use_first_argument (r : Router) (a : JsArg Fn) (rest : list (JsArg Fn)) :
  (is_function Fn (first_leaf Fn a) = true →
   use Fn newLayer r (a :: rest)
   = (set_stack (use_loop Fn newLayer (JVal (VStr "/")) (r_caseSensitive r)
                   (flatten Fn (a :: rest)) (r_stack r)).1 r,
      (use_loop Fn newLayer (JVal (VStr "/")) (r_caseSensitive r)
         (flatten Fn (a :: rest)) (r_stack r)).2))
  ∧ (is_function Fn (first_leaf Fn a) = false →
     use Fn newLayer r (a :: rest)
     = if length (flatten Fn rest) =? 0
       then (r, Some "argument handler is required")
       else (set_stack (use_loop Fn newLayer a (r_caseSensitive r)
                          (flatten Fn rest) (r_stack r)).1 r,
             (use_loop Fn newLayer a (r_caseSensitive r) (flatten Fn rest) (r_stack r)).2)).
Proof.
  split; intros Hleaf; unfold use; cbn [head from_option id].
  - assert (Hsel : (if negb (is_function Fn a)
                    then if negb (is_function Fn (first_leaf Fn a))
                         then (1, a) else (0, JVal (VStr "/"))
                    else (0, JVal (VStr "/"))) = (0, JVal (VStr "/"))).
    { rewrite Hleaf. by destruct (negb (is_function Fn a)). }
    rewrite Hsel. cbn [drop].
    destruct (first_leaf_flatten a Hleaf) as (f & tl & Hflat).
    rewrite flatten_cons, Hflat. simpl.
    by destruct (use_loop _ _ _ _ _ _).
  - assert (Hfun : is_function Fn a = false).
    { destruct a; simpl in *; done. }
    rewrite Hfun, Hleaf. cbn [negb drop]. rewrite drop_0.
    destruct (length (flatten Fn rest) =? 0); [done|].
    by destruct (use_loop _ _ _ _ _ _).
Qed.

End Appending.

Lemma use_first_argument_witness :
  (use (Session -> HandlerResult)
       (fun _ _ h => any_layer None h) (router_of false ∅ [])
       [JArr [JFun pass; JFun respond]]).2 = None.
Proof.
  destruct (use_first_argument (Session -> HandlerResult)
              (fun _ _ h => any_layer None h) (router_of false ∅ [])
              (JArr [JFun pass; JFun respond]) []) as [Hfun _].
  rewrite Hfun; reflexivity.
Defined.
